(** * Hazard models notebook: name binding, control structure and curves

    The program is the script exported from the notebook
    [stat/hazard_models]: six code cells, In[1] to In[6], separated by prose.
    Two views of it are formalised.

    - The numerical content of the cells (grids, curves, the synthetic data
      of In[6]) is embedded shallowly in module [Curves].  NumPy float64
      arrays are idealised as lists of real numbers, [np.exp] is the real
      exponential, and the functions of SciPy and of NumPy's random module
      are the fields of the interface [SciStack].

    - The text of the cells is embedded as abstract syntax ([stmt], [expr])
      in module [Notebook], with an interpreter for the Python name-binding
      rules (globals, builtins, comprehension scope, exceptions).  Whatever
      an object does when it is imported, called, indexed or added is left to
      an interface, [Library]; the interpreter keeps a trace of what it asked
      of that interface.

    Definitions come first; the facts about the curves, the general facts
    about the interpreter and the facts about the six cells follow. *)

From Stdlib Require Import Reals Lra Lia ZArith List Sorted.
From stdpp Require Import base strings gmap list.

(** ** The scientific stack, as far as the curves need it *)

(** [norm_cdf loc scale x] is [norm(loc, scale).cdf(x)], [norm_ppf q loc scale]
    is [norm.ppf(q, loc, scale)].  NumPy's global generator has a state;
    [np_random_seed s g] is the state [np.random.seed(s)] leaves when called
    in state [g], [gauss g i] the [i]-th standard normal deviate drawn from
    state [g], and [advance n g] the state after [n] deviates have been drawn.
    [seed_forgets] is NumPy's contract for seeding: the state installed is
    computed from the seed alone. *)
Class SciStack := {
  norm_cdf : R -> R -> R -> R;
  norm_ppf : R -> R -> R -> R;
  rng : Type;
  np_random_seed : Z -> rng -> rng;
  gauss : rng -> nat -> R;
  advance : nat -> rng -> rng;
  seed_forgets : forall s g1 g2, np_random_seed s g1 = np_random_seed s g2
}.

Module Curves.
Local Open Scope R_scope.

(** [np.linspace(start, stop, num)]: [num] evenly spaced points, both ends
    included. *)
Definition linspace (start stop : R) (num : nat) : list R :=
  map (fun i => start + INR i * ((stop - start) / INR (num - 1))) (seq 0 num).

(** [np.logspace(start, stop, num)]: ten to the power of each point of
    [linspace]. *)
Definition logspace (start stop : R) (num : nat) : list R :=
  map (Rpower 10) (linspace start stop num).

(** [np.ones(n)]. *)
Definition ones (n : nat) : list R := repeat 1 n.

(** Array plus array, array plus scalar, array times scalar, scalar minus
    array, all elementwise. *)
Definition add_arr (a b : list R) : list R := zip_with Rplus a b.
Definition add_scalar (a : list R) (c : R) : list R := map (fun x => x + c) a.
Definition mul_scalar (a : list R) (c : R) : list R := map (fun x => x * c) a.
Definition rsub_scalar (c : R) (a : list R) : list R := map (fun x => c - x) a.

(** [np.array(rows).T] for rows of [ncols] entries. *)
Definition transpose (ncols : nat) (rows : list (list R)) : list (list R) :=
  map (fun j => map (fun r => nth j r 0) rows) (seq 0 ncols).

(** [norm(loc=..., scale=...)]: a frozen distribution. *)
Record frozen := { loc : R; scale : R }.

Definition cdf `{SciStack} (d : frozen) (xs : list R) : list R :=
  map (norm_cdf (loc d) (scale d)) xs.

(** [np.random.randn(n)] from state [g]: the array and the next state. *)
Definition randn `{SciStack} (n : nat) (g : rng) : list R * rng :=
  (map (gauss g) (seq 0 n), advance n g).

(** What [ax.plot(x, y)] draws: the abscissas and the ordinates. *)
Definition curve : Type := list R * list R.

(** In[1], lines 29 to 34. *)
Module In1.
Definition rv : frozen := {| loc := 4; scale := 1.5 |}.
Definition t `{SciStack} : list R := linspace 0 (norm_ppf 0.99 4 1.5) 100.
Definition plot `{SciStack} : curve := (t, cdf rv t).
End In1.

(** In[2], lines 46 to 51. *)
Module In2.
Definition rv : frozen := {| loc := 4; scale := 1.5 |}.
Definition t `{SciStack} : list R := linspace 0 (norm_ppf 0.99 4 1.5) 100.
Definition plot `{SciStack} : curve := (t, rsub_scalar 1 (cdf rv t)).
End In2.

(** In[3], lines 127 to 138. *)
Module In3.
Definition t : list R := linspace 0 20 200.
Definition m0 : R := 0.1.
(** The two functions the cell tabulates: the constant risk and the
    survival function [exp(-m0*t)]. *)
Definition m (_ : R) : R := m0.
Definition S (x : R) : R := exp (- m0 * x).
Definition plot0 : curve := (t, mul_scalar (ones (length t)) m0).
Definition plot1 : curve := (t, map exp (map (fun x => - m0 * x) t)).
End In3.

(** In[6], lines 180 to 184: the part of the cell that computes [data].
    The comprehension draws one noise vector per [ii], in order, from the
    generator state left by the previous draw. *)
Module In6.
Definition N : nat := 10.

Fixpoint rows `{SciStack} (iis : list nat) (g : rng) : list (list R) * rng :=
  match iis with
  | [] => ([], g)
  | ii :: rest =>
      let '(noise, g1) := randn 100 g in
      let row := add_scalar (add_arr (logspace 0 1 100) noise) (INR ii) in
      let '(rs, g2) := rows rest g1 in
      (row :: rs, g2)
  end.

(** [data] after line 184 and the generator state, from the state [g] the
    generator had when the cell started. *)
Definition data `{SciStack} (g : rng) : list (list R) * rng :=
  let g0 := np_random_seed 19680801 g in
  let '(rs, g') := rows (seq 0 N) g0 in
  (transpose 100 rs, g').
End In6.

End Curves.

(** ** The text of the notebook *)

Module Notebook.
Local Open Scope string_scope.

(** *** Syntax

    The fragment of Python the six cells are written in, and the three
    compound statements the claims speak about ([if], [for], [try]). *)

(** Literals: an integer, a decimal ([digits] times ten to the [exp10]) or a
    string. *)
Inductive const :=
| CInt (z : Z)
| CFloat (digits exp10 : Z)
| CStr (s : string).

Inductive binop := Add | Sub | Mul.

#[warnings="-register-all"]
Inductive expr :=
| EName (x : string)
| EConst (c : const)
| EAttr (e : expr) (a : string)
| ECall (f : expr) (args : list expr) (kwargs : list (string * expr))
| EBinOp (op : binop) (l r : expr)
| ENeg (e : expr)
| ESubscript (e i : expr)
| EList (es : list expr)
| ETuple (es : list expr)
| EListComp (body : expr) (x : string) (iter : expr).

(** Assignment targets: [x = ...], [x, y = ...] and [o[k] = ...]. *)
Inductive target :=
| TName (x : string)
| TTuple (xs : list string)
| TSubscript (o k : expr).

#[warnings="-register-all"]
Inductive stmt :=
| SImportAs (module alias : string)
| SFromImport (module name : string)
| SAssign (tgt : target) (e : expr)
| SExpr (e : expr)
| SIf (cond : expr) (body orelse : list stmt)
| SFor (x : string) (iter : expr) (body : list stmt)
| STry (body handler : list stmt).

Definition cell : Type := list stmt.

Definition int (z : Z) : expr := EConst (CInt z).
Definition flt (digits exp10 : Z) : expr := EConst (CFloat digits exp10).
Definition str (s : string) : expr := EConst (CStr s).
(** [o.a(args)] and [f(args)] without keyword arguments. *)
Definition meth (o : expr) (a : string) (args : list expr) : expr :=
  ECall (EAttr o a) args [].
Definition call (f : string) (args : list expr) : expr :=
  ECall (EName f) args [].

(** *** The six cells *)

(** In[1], lines 25 to 34. *)
Definition In1 : cell := [
  SFromImport "scipy.stats" "norm";
  SImportAs "matplotlib.pyplot" "plt";
  SImportAs "numpy" "np";
  SAssign (TName "rv")
    (ECall (EName "norm") [] [("loc", int 4); ("scale", flt 15 (-1))]);
  SAssign (TName "t")
    (meth (EName "np") "linspace"
       [int 0;
        ECall (EAttr (EName "norm") "ppf") [flt 99 (-2)]
          [("loc", int 4); ("scale", flt 15 (-1))];
        int 100]);
  SAssign (TTuple ["fig"; "ax"]) (meth (EName "plt") "subplots" [int 1; int 1]);
  SExpr (meth (EName "ax") "set_xlabel" [str "Time"]);
  SExpr (meth (EName "ax") "set_ylabel" [str "Probability to die"]);
  SExpr (meth (EName "ax") "plot"
           [EName "t"; meth (EName "rv") "cdf" [EName "t"]])
].

(** In[2], lines 46 to 51. *)
Definition In2 : cell := [
  SAssign (TName "rv")
    (ECall (EName "norm") [] [("loc", int 4); ("scale", flt 15 (-1))]);
  SAssign (TName "t")
    (meth (EName "np") "linspace"
       [int 0;
        ECall (EAttr (EName "norm") "ppf") [flt 99 (-2)]
          [("loc", int 4); ("scale", flt 15 (-1))];
        int 100]);
  SAssign (TTuple ["fig"; "ax"]) (meth (EName "plt") "subplots" [int 1; int 1]);
  SExpr (meth (EName "ax") "set_xlabel" [str "Time"]);
  SExpr (meth (EName "ax") "set_ylabel" [str "Probability to survive"]);
  SExpr (meth (EName "ax") "plot"
           [EName "t";
            EBinOp Sub (int 1) (meth (EName "rv") "cdf" [EName "t"])])
].

(** In[3], lines 127 to 138. *)
Definition In3 : cell := [
  SAssign (TName "t") (meth (EName "np") "linspace" [int 0; int 20; int 200]);
  SAssign (TTuple ["fig"; "ax"])
    (ECall (EAttr (EName "plt") "subplots") [int 1; int 2]
       [("figsize", ETuple [int 12; int 5])]);
  SAssign (TName "m0") (flt 1 (-1));
  SExpr (meth (ESubscript (EName "ax") (int 0)) "plot"
           [EName "t";
            EBinOp Mul (meth (EName "np") "ones" [call "len" [EName "t"]])
              (EName "m0")]);
  SExpr (meth (ESubscript (EName "ax") (int 0)) "set_xlabel" [str "Time"]);
  SExpr (meth (ESubscript (EName "ax") (int 0)) "set_ylabel"
           [str "Mortality risk"]);
  SExpr (meth (ESubscript (EName "ax") (int 1)) "plot"
           [EName "t";
            meth (EName "np") "exp"
              [EBinOp Mul (ENeg (EName "m0")) (EName "t")]]);
  SExpr (meth (ESubscript (EName "ax") (int 1)) "set_xlabel" [str "Time"]);
  SExpr (meth (ESubscript (EName "ax") (int 1)) "set_ylabel"
           [str "Probability of survival"])
].

(** In[4], line 165. *)
Definition In4 : cell := [
  SFromImport "lifelines.datasets" "load_waltons"
].

(** In[5], line 171. *)
Definition In5 : cell := [
  SExpr (call "load_waltons" [])
].

(** In[6], lines 180 to 196. *)
Definition In6 : cell := [
  SExpr (meth (EAttr (EName "np") "random") "seed" [int 19680801]);
  SAssign (TName "N") (int 10);
  SAssign (TName "data")
    (EListComp
       (EBinOp Add
          (EBinOp Add
             (meth (EName "np") "logspace" [int 0; int 1; int 100])
             (meth (EAttr (EName "np") "random") "randn" [int 100]))
          (EName "ii"))
       "ii" (call "range" [EName "N"]));
  SAssign (TName "data") (EAttr (meth (EName "np") "array" [EName "data"]) "T");
  SAssign (TName "cmap") (EAttr (EAttr (EName "plt") "cm") "coolwarm");
  SAssign (TSubscript (EName "rcParams") (str "axes.prop_cycle"))
    (ECall (EName "cycler") []
       [("color",
         call "cmap" [meth (EName "np") "linspace" [int 0; int 1; EName "N"]])]);
  SFromImport "matplotlib.lines" "Line2D";
  SAssign (TName "custom_lines")
    (EList [
       ECall (EName "Line2D") [EList [int 0]; EList [int 0]]
         [("color", call "cmap" [flt 0 0]); ("lw", int 4)];
       ECall (EName "Line2D") [EList [int 0]; EList [int 0]]
         [("color", call "cmap" [flt 5 (-1)]); ("lw", int 4)];
       ECall (EName "Line2D") [EList [int 0]; EList [int 0]]
         [("color", call "cmap" [flt 1 0]); ("lw", int 4)]]);
  SAssign (TTuple ["fig"; "ax"])
    (ECall (EAttr (EName "plt") "subplots") []
       [("figsize", ETuple [int 10; int 5])]);
  SAssign (TName "lines") (meth (EName "ax") "plot" [EName "data"]);
  SExpr (meth (EName "ax") "legend"
           [EName "custom_lines";
            EList [str "Cold"; str "Medium"; str "Hot"]])
].

(** The script: the cells in document order. *)
Definition notebook : list cell := [In1; In2; In3; In4; In5; In6].

(** *** Static readings of the text *)

(** Names an expression reads from outside itself. *)
Fixpoint fv (e : expr) : gset string :=
  match e with
  | EName x => {[x]}
  | EConst _ => ∅
  | EAttr e _ => fv e
  | ECall f args kwargs =>
      fv f ∪ ⋃ (map fv args) ∪ ⋃ (map (fun kw => fv (snd kw)) kwargs)
  | EBinOp _ l r => fv l ∪ fv r
  | ENeg e => fv e
  | ESubscript e i => fv e ∪ fv i
  | EList es => ⋃ (map fv es)
  | ETuple es => ⋃ (map fv es)
  | EListComp body x iter => fv iter ∪ (fv body ∖ {[x]})
  end.

(** Names a target binds, and names it reads. *)
Definition target_binds (tgt : target) : gset string :=
  match tgt with
  | TName x => {[x]}
  | TTuple xs => list_to_set xs
  | TSubscript _ _ => ∅
  end.

Definition target_reads (tgt : target) : gset string :=
  match tgt with
  | TName _ | TTuple _ => ∅
  | TSubscript o k => fv o ∪ fv k
  end.

(** Names a statement may bind. *)
Fixpoint assigned (s : stmt) : gset string :=
  match s with
  | SImportAs _ alias => {[alias]}
  | SFromImport _ name => {[name]}
  | SAssign tgt _ => target_binds tgt
  | SExpr _ => ∅
  | SIf _ body orelse => ⋃ (map assigned body) ∪ ⋃ (map assigned orelse)
  | SFor x _ body => {[x]} ∪ ⋃ (map assigned body)
  | STry body handler => ⋃ (map assigned body) ∪ ⋃ (map assigned handler)
  end.

(** Names a statement has bound whenever it completes normally. *)
Fixpoint defs (s : stmt) : gset string :=
  match s with
  | SImportAs _ alias => {[alias]}
  | SFromImport _ name => {[name]}
  | SAssign tgt _ => target_binds tgt
  | SExpr _ => ∅
  | SIf _ body orelse => ⋃ (map defs body) ∩ ⋃ (map defs orelse)
  | SFor _ _ _ => ∅
  | STry body handler => ⋃ (map defs body) ∩ ⋃ (map defs handler)
  end.

(** Free names of a block, given those of a statement: the names a
    statement reads that no earlier statement of the block has bound. *)
Definition free_block_with (free : stmt -> gset string) : list stmt -> gset string :=
  fix go b :=
    match b with
    | [] => ∅
    | s :: b' => free s ∪ (go b' ∖ defs s)
    end.

Fixpoint free (s : stmt) : gset string :=
  match s with
  | SImportAs _ _ | SFromImport _ _ => ∅
  | SAssign tgt e => fv e ∪ target_reads tgt
  | SExpr e => fv e
  | SIf cond body orelse =>
      fv cond ∪ free_block_with free body ∪ free_block_with free orelse
  | SFor x iter body => fv iter ∪ (free_block_with free body ∖ {[x]})
  | STry body handler =>
      free_block_with free body ∪ free_block_with free handler
  end.

Definition free_block : list stmt -> gset string := free_block_with free.
Definition assigned_block (b : list stmt) : gset string := ⋃ (map assigned b).
Definition defs_block (b : list stmt) : gset string := ⋃ (map defs b).











(** Attribute names an expression reads. *)
Fixpoint attrs (e : expr) : list string :=
  match e with
  | EName _ | EConst _ => []
  | EAttr e a => attrs e ++ [a]
  | ECall f args kwargs =>
      attrs f ++ flat_map attrs args ++ flat_map (fun kw => attrs (snd kw)) kwargs
  | EBinOp _ l r => attrs l ++ attrs r
  | ENeg e => attrs e
  | ESubscript e i => attrs e ++ attrs i
  | EList es => flat_map attrs es
  | ETuple es => flat_map attrs es
  | EListComp body _ iter => attrs iter ++ attrs body
  end.

Fixpoint stmt_attrs (s : stmt) : list string :=
  match s with
  | SImportAs _ _ | SFromImport _ _ => []
  | SAssign tgt e =>
      attrs e ++ match tgt with
                 | TSubscript o k => attrs o ++ attrs k
                 | _ => []
                 end
  | SExpr e => attrs e
  | SIf cond body orelse =>
      attrs cond ++ flat_map stmt_attrs body ++ flat_map stmt_attrs orelse
  | SFor _ iter body => attrs iter ++ flat_map stmt_attrs body
  | STry body handler => flat_map stmt_attrs body ++ flat_map stmt_attrs handler
  end.

(** The cell reads the attribute [random] of some object, as in
    [np.random.seed] and [np.random.randn]. *)
Definition uses_random (c : cell) : bool :=
  existsb (String.eqb "random") (flat_map stmt_attrs c).

(** The operations a statement asks of the objects it handles, by kind:
    what the interpreter hands to the library. *)
Inductive op :=
| OImport (module : string)
| OImportFrom (module name : string)
| OGetAttr (a : string)
| OCall
| OBinOp (o : binop)
| ONeg
| OGetItem
| OSetItem
| OIter
| OTruth.




Definition is_OCall (o : op) : bool :=
  match o with
  | OCall => true
  | _ => false
  end.




(** The script around the statement of line 186: what runs before it (the
    cells In[1] to In[5] and lines 180 to 185 of In[6]), the statement
    itself, and what follows it. *)
Definition upto_line_185 : list stmt :=
  concat [In1; In2; In3; In4; In5] ++ firstn 5 In6.
Definition line_186 : stmt :=
  SAssign (TSubscript (EName "rcParams") (str "axes.prop_cycle"))
    (ECall (EName "cycler") []
       [("color",
         call "cmap" [meth (EName "np") "linspace" [int 0; int 1; EName "N"]])]).
Definition after_line_186 : list stmt := skipn 6 In6.

(** *** The object layer *)

(** What the interpreter asks of the objects it handles. *)
Inductive prim (V : Type) : Type :=
| PImport (module : string)
| PImportFrom (module name : string)
| PGetAttr (o : V) (a : string)
| PCall (f : V) (args : list V) (kwargs : list (string * V))
| PBinOp (op : binop) (l r : V)
| PNeg (o : V)
| PGetItem (o k : V)
| PSetItem (o k v : V)
| PIter (o : V)
| PTruth (o : V).
Arguments PImport {V}.
Arguments PImportFrom {V}.
Arguments PGetAttr {V}.
Arguments PCall {V}.
Arguments PBinOp {V}.
Arguments PNeg {V}.
Arguments PGetItem {V}.
Arguments PSetItem {V}.
Arguments PIter {V}.
Arguments PTruth {V}.

(** The interpreter's view of Python objects and of the libraries behind
    them.  [perform p w] runs the operation [p] in the world [w] (everything
    outside the namespace: generator state, plotting style, open figures) and
    returns a value or raises.  [items] reads the elements off the list that
    [PIter] returns, [truth] the boolean that [PTruth] returns. *)
Class Library := {
  value : Type;
  lib_exn : Type;
  lib_world : Type;
  perform : prim value -> lib_world -> (value + lib_exn) * lib_world;
  constant : const -> value;
  mk_list : list value -> value;
  mk_tuple : list value -> value;
  items : value -> list value;
  truth : value -> bool;
  builtin : string -> value
}.

(** The functions of the [builtins] module. *)
Definition builtin_names : list string := [
  "abs"; "aiter"; "all"; "anext"; "any"; "ascii"; "bin"; "bool";
  "breakpoint"; "bytearray"; "bytes"; "callable"; "chr"; "classmethod";
  "compile"; "complex"; "delattr"; "dict"; "dir"; "divmod"; "enumerate";
  "eval"; "exec"; "filter"; "float"; "format"; "frozenset"; "getattr";
  "globals"; "hasattr"; "hash"; "help"; "hex"; "id"; "input"; "int";
  "isinstance"; "issubclass"; "iter"; "len"; "list"; "locals"; "map"; "max";
  "memoryview"; "min"; "next"; "object"; "oct"; "open"; "ord"; "pow";
  "print"; "property"; "range"; "repr"; "reversed"; "round"; "set";
  "setattr"; "slice"; "sorted"; "staticmethod"; "str"; "sum"; "super";
  "tuple"; "type"; "vars"; "zip"; "__import__"
].

Section Semantics.
Context {L : Library}.

Inductive exn :=
| NameError (x : string)
| UnpackError (expected got : nat)
| LibError (e : lib_exn).

Inductive result (A : Type) :=
| Ok (a : A)
| Raise (e : exn).
Arguments Ok {A}.
Arguments Raise {A}.

(** One entry of the trace: the operation asked of the object layer and the
    exception it raised, if any. *)
Record event := { ev_prim : prim value; ev_raised : option lib_exn }.

Record state := {
  globals : gmap string value;
  world : lib_world;
  trace : list event
}.

Definition M (A : Type) : Type := state -> result A * state.

Definition ret {A} (a : A) : M A := fun s => (Ok a, s).
Definition raise {A} (e : exn) : M A := fun s => (Raise e, s).
Definition bind {A B} (m : M A) (k : A -> M B) : M B :=
  fun s => match m s with
           | (Ok a, s') => k a s'
           | (Raise e, s') => (Raise e, s')
           end.

Notation "'let*' x ':=' m 'in' k" := (bind m (fun x => k))
  (at level 10, x name, m at level 100, k at level 200).
Notation "m ';;' k" := (bind m (fun _ => k))
  (at level 100, k at level 200, right associativity).

Definition do_prim (p : prim value) : M value :=
  fun s =>
    match perform p (world s) with
    | (inl v, w) =>
        (Ok v, {| globals := globals s; world := w;
                  trace := trace s ++ [{| ev_prim := p; ev_raised := None |}] |})
    | (inr e, w) =>
        (Raise (LibError e),
         {| globals := globals s; world := w;
            trace := trace s ++ [{| ev_prim := p; ev_raised := Some e |}] |})
    end.

(** Name lookup: the comprehension's own variables, then the globals, then
    the builtins. *)
Definition lookup_name (loc : gmap string value) (x : string) : M value :=
  fun s =>
    match loc !! x with
    | Some v => (Ok v, s)
    | None =>
        match globals s !! x with
        | Some v => (Ok v, s)
        | None =>
            if bool_decide (x ∈ builtin_names) then (Ok (builtin x), s)
            else (Raise (NameError x), s)
        end
    end.

Definition bind_name (x : string) (v : value) : M unit :=
  fun s => (Ok tt, {| globals := <[x := v]> (globals s); world := world s;
                      trace := trace s |}).

(** [map_m f l]: run [f] on the elements of [l] from left to right. *)
Definition map_m {A B} (f : A -> M B) : list A -> M (list B) :=
  fix go l :=
    match l with
    | [] => ret []
    | a :: l' => let* b := f a in let* bs := go l' in ret (b :: bs)
    end.

Definition iter_m {A} (f : A -> M unit) : list A -> M unit :=
  fix go l :=
    match l with
    | [] => ret tt
    | a :: l' => f a;; go l'
    end.

Fixpoint eval (loc : gmap string value) (e : expr) : M value :=
  match e with
  | EName x => lookup_name loc x
  | EConst c => ret (constant c)
  | EAttr e a => let* o := eval loc e in do_prim (PGetAttr o a)
  | ECall f args kwargs =>
      let* fv := eval loc f in
      let* avs := map_m (eval loc) args in
      let* kvs := map_m (fun kw => let* v := eval loc (snd kw) in ret (fst kw, v)) kwargs in
      do_prim (PCall fv avs kvs)
  | EBinOp op l r =>
      let* a := eval loc l in
      let* b := eval loc r in
      do_prim (PBinOp op a b)
  | ENeg e => let* a := eval loc e in do_prim (PNeg a)
  | ESubscript e i =>
      let* o := eval loc e in
      let* k := eval loc i in
      do_prim (PGetItem o k)
  | EList es => let* vs := map_m (eval loc) es in ret (mk_list vs)
  | ETuple es => let* vs := map_m (eval loc) es in ret (mk_tuple vs)
  | EListComp body x iter =>
      let* it := eval loc iter in
      let* l := do_prim (PIter it) in
      let* vs := map_m (fun v => eval (<[x := v]> loc) body) (items l) in
      ret (mk_list vs)
  end.

Definition assign (tgt : target) (v : value) : M unit :=
  match tgt with
  | TName x => bind_name x v
  | TTuple xs =>
      let* l := do_prim (PIter v) in
      if decide (length (items l) = length xs)
      then iter_m (fun xv => bind_name (fst xv) (snd xv)) (zip xs (items l))
      else raise (UnpackError (length xs) (length (items l)))
  | TSubscript o k =>
      let* ov := eval ∅ o in
      let* kv := eval ∅ k in
      do_prim (PSetItem ov kv v);; ret tt
  end.

Fixpoint exec (s : stmt) : M unit :=
  match s with
  | SImportAs module alias =>
      let* v := do_prim (PImport module) in bind_name alias v
  | SFromImport module name =>
      let* v := do_prim (PImportFrom module name) in bind_name name v
  | SAssign tgt e => let* v := eval ∅ e in assign tgt v
  | SExpr e => eval ∅ e;; ret tt
  | SIf cond body orelse =>
      let* c := eval ∅ cond in
      let* b := do_prim (PTruth c) in
      if truth b then iter_m exec body else iter_m exec orelse
  | SFor x iter body =>
      let* it := eval ∅ iter in
      let* l := do_prim (PIter it) in
      iter_m (fun v => bind_name x v;; iter_m exec body) (items l)
  | STry body handler =>
      fun s => match iter_m exec body s with
               | (Ok _, s') => (Ok tt, s')
               | (Raise _, s') => iter_m exec handler s'
               end
  end.

Definition exec_cell (c : cell) : M unit := iter_m exec c.

(** The script runs the cells in order and stops at the first exception. *)
Definition run (cells : list cell) : M unit := iter_m exec_cell cells.

(** A fresh interpreter: no global bound, nothing asked yet. *)
Definition fresh (w : lib_world) : state :=
  {| globals := ∅; world := w; trace := [] |}.

(** No event of the trace raised. *)
Definition quiet (t : list event) : Prop :=
  Forall (fun ev => ev_raised ev = None) t.

(** What a computation added to the trace and how it ended: either nothing
    raised and the result is no library exception, or the last event raised
    and the result is that very exception. *)
Definition propagated {A} (new : list event) (r : result A) : Prop :=
  (quiet new /\ forall e, r <> Raise (LibError e))
  \/ (exists pre p e,
        new = (pre ++ [{| ev_prim := p; ev_raised := Some e |}])%list
        /\ quiet pre /\ r = Raise (LibError e)).

(** [m] never swallows or alters a library exception. *)
Definition faithful {A} (m : M A) : Prop :=
  forall s, exists new,
    trace (snd (m s)) = (trace s ++ new)%list /\ propagated new (fst (m s)).

(** Hoare triples over the interpreter monad, with a postcondition for normal
    completion and one for an exception. *)
Definition triple {A} (P : state -> Prop) (m : M A)
    (Q : A -> state -> Prop) (E : exn -> state -> Prop) : Prop :=
  forall s, P s ->
    match m s with
    | (Ok a, s') => Q a s'
    | (Raise e, s') => E e s'
    end.

(** The names that resolve in a namespace: its keys and the builtins. *)
Definition visible (g : gmap string value) : gset string :=
  dom g ∪ list_to_set builtin_names.

Definition not_name_error (e : exn) : Prop := forall x, e <> NameError x.

(** Every name of [X] resolves in state [s]. *)
Definition scoped (X : gset string) (s : state) : Prop := X ⊆ visible (globals s).

(** The exception is no [NameError], and the names of [X] still resolve. *)
Definition scope_exn (X : gset string) (e : exn) (s : state) : Prop :=
  scoped X s /\ not_name_error e.

(** A statement whose free names resolve raises no [NameError] and, when it
    completes, has bound the names of [defs]. *)
Definition stmt_scoped (s : stmt) : Prop :=
  forall X, free s ⊆ X ->
    triple (scoped X) (exec s) (fun _ => scoped (X ∪ defs s)) (scope_exn X).

(** [framed A g s]: outside the names of [A], the namespace of [s] is [g]. *)
Definition framed (A : gset string) (g : gmap string value) (s : state) : Prop :=
  forall x, x ∉ A -> globals s !! x = g !! x.

(** Two states with the same world that bind the names of [X] to the same
    values. *)
Definition agree (X : gset string) (s1 s2 : state) : Prop :=
  world s1 = world s2
  /\ forall x, x ∈ X -> globals s1 !! x = globals s2 !! x.

(** Two runs of [m] end the same way: the same value or the same exception. *)
Definition rtriple {A} (P : state -> state -> Prop) (m : M A)
    (Q : state -> state -> Prop) (E : state -> state -> Prop) : Prop :=
  forall s1 s2, P s1 s2 ->
    match m s1, m s2 with
    | (Ok a1, s1'), (Ok a2, s2') => a1 = a2 /\ Q s1' s2'
    | (Raise e1, s1'), (Raise e2, s2') => e1 = e2 /\ E s1' s2'
    | _, _ => False
    end.

(** Two runs of a statement from states that agree on its free names end
    the same way. *)
Definition stmt_agree (s : stmt) : Prop :=
  forall X, free s ⊆ X -> rtriple (agree X) (exec s) (agree (X ∪ defs s)) (agree X).

(** Two runs of a cell end the same way: the same result, the same world
    and, when they complete, the same value for every name the cell binds. *)
Definition same_outcome (c : cell) (s1 s2 : state) : Prop :=
  fst (exec_cell c s1) = fst (exec_cell c s2)
  /\ world (snd (exec_cell c s1)) = world (snd (exec_cell c s2))
  /\ (fst (exec_cell c s1) = Ok tt ->
      forall x, x ∈ defs_block c ->
        globals (snd (exec_cell c s1)) !! x = globals (snd (exec_cell c s2)) !! x).

(** The calls made so far: the [PCall] events of the trace. *)
Definition is_call (ev : event) : bool :=
  match ev_prim ev with
  | PCall _ _ _ => true
  | _ => false
  end.

Definition calls_made (s : state) : nat := length (List.filter is_call (trace s)).



(** The operations performed so far, by kind, oldest first. *)
Definition prim_op (p : prim value) : op :=
  match p with
  | PImport m => OImport m
  | PImportFrom m n => OImportFrom m n
  | PGetAttr _ a => OGetAttr a
  | PCall _ _ _ => OCall
  | PBinOp o _ _ => OBinOp o
  | PNeg _ => ONeg
  | PGetItem _ _ => OGetItem
  | PSetItem _ _ _ => OSetItem
  | PIter _ => OIter
  | PTruth _ => OTruth
  end.

Definition performed (s : state) : list op :=
  map (fun ev => prim_op (ev_prim ev)) (trace s).


(** The result is no [NameError]. *)
Definition no_name_error {A} (r : result A) : Prop :=
  forall x, r <> Raise (NameError x).

End Semantics.

Arguments Ok {L A}.
Arguments Raise {L A}.
Arguments visible {L} g : simpl never.
Global Typeclasses Opaque visible.

(** Two small libraries.  In [stub] every operation succeeds and returns the
    one object there is, and every iteration yields two items; in [failing]
    every operation raises. *)
Definition stub : Library := {|
  value := unit;
  lib_exn := Empty_set;
  lib_world := unit;
  perform := fun _ w => (inl tt, w);
  constant := fun _ => tt;
  mk_list := fun _ => tt;
  mk_tuple := fun _ => tt;
  items := fun _ => [tt; tt];
  truth := fun _ => true;
  builtin := fun _ => tt
|}.

Definition failing : Library := {|
  value := unit;
  lib_exn := unit;
  lib_world := unit;
  perform := fun _ w => (inr tt, w);
  constant := fun _ => tt;
  mk_list := fun _ => tt;
  mk_tuple := fun _ => tt;
  items := fun _ => [];
  truth := fun _ => true;
  builtin := fun _ => tt
|}.

End Notebook.

(** A small scientific stack: the generator state is the last seed given
    and the number of deviates drawn since, the distribution functions are
    affine. *)
Definition history : SciStack := {|
  norm_cdf := fun loc scale x => ((x - loc) / scale)%R;
  norm_ppf := fun q loc scale => (loc + scale * q)%R;
  rng := option Z * nat;
  np_random_seed := fun s _ => (Some s, 0);
  gauss := fun _ _ => 0%R;
  advance := fun n g => (fst g, snd g + n);
  seed_forgets := fun _ _ _ => eq_refl
|}.

(** * Facts about the curves *)

Section CurveFacts.
Import Curves.
Local Open Scope R_scope.

(** ** The grid *)

Lemma linspace_length a b n : length (linspace a b n) = n.
Proof. unfold linspace. by rewrite length_map, length_seq. Qed.

Lemma linspace_nth a b n i :
  (i < n)%nat -> nth i (linspace a b n) 0 = a + INR i * ((b - a) / INR (n - 1)).
Proof.
  intros Hi. unfold linspace.
  set (f := fun i => a + INR i * ((b - a) / INR (n - 1))).
  rewrite (nth_indep _ 0 (f 0%nat)) by (by rewrite length_map, length_seq).
  by rewrite map_nth, seq_nth.
Qed.

Lemma nth_map_lt {A B} (f : A -> B) (l : list A) (d : A) (d' : B) i :
  (i < length l)%nat -> nth i (map f l) d' = f (nth i l d).
Proof.
  revert i. induction l as [|a l IH]; intros [|i] Hi; simpl in *; try lia; [done|].
  apply IH. lia.
Qed.

Lemma sorted_map_seq (rel : R -> R -> Prop) (f : nat -> R) a n :
  (forall i j, (i < j)%nat -> rel (f i) (f j)) ->
  StronglySorted rel (map f (seq a n)).
Proof.
  intros Hf. revert a. induction n as [|n IH]; intros a; simpl; constructor.
  - apply IH.
  - apply Forall_forall. intros y Hy.
    apply list_elem_of_In, in_map_iff in Hy as (j & <- & Hj).
    apply in_seq in Hj. apply Hf. lia.
Qed.

(** ** In[3]: the constant-risk model *)

Lemma plot1_tabulates_S : In3.plot1 = (In3.t, map In3.S In3.t).
Proof. unfold In3.plot1. by rewrite map_map. Qed.

Lemma plot0_tabulates_m : In3.plot0 = (In3.t, map In3.m In3.t).
Proof.
  unfold In3.plot0, mul_scalar, ones. f_equal.
  generalize In3.t. induction l as [|x l IH]; simpl; [done|].
  rewrite IH. f_equal. unfold In3.m. ring.
Qed.

Lemma In3_step : (20 - 0) / INR (200 - 1) = 20 / 199.
Proof. rewrite INR_IZR_INZ. simpl. f_equal; lra. Qed.

Lemma In3_t_points : In3.t = map (fun i => INR i * (20 / 199)) (seq 0 200).
Proof.
  unfold In3.t, linspace. rewrite In3_step. apply map_ext. intros i. ring.
Qed.

Lemma S_derive (x : R) : derivable_pt_lim In3.S x (- In3.m0 * In3.S x).
Proof.
  unfold In3.S.
  assert (Hin : derivable_pt_lim (fun y => - In3.m0 * y) x (- In3.m0)).
  { pose proof (derivable_pt_lim_scal id (- In3.m0) x 1 (derivable_pt_lim_id x)) as Hs.
    rewrite Rmult_1_r in Hs. exact Hs. }
  replace (- In3.m0 * exp (- In3.m0 * x)) with (exp (- In3.m0 * x) * - In3.m0) by ring.
  apply (derivable_pt_lim_comp (fun y => - In3.m0 * y) exp);
    [exact Hin | apply derivable_pt_lim_exp].
Qed.

Lemma S_range x : 0 <= x -> 0 < In3.S x <= 1.
Proof.
  intros Hx. unfold In3.S. split; [apply exp_pos|].
  rewrite <- exp_0. destruct Hx as [Hx| <-].
  - left. apply exp_increasing. unfold In3.m0. lra.
  - right. f_equal. ring.
Qed.

Lemma S_decreasing x y : x < y -> In3.S y < In3.S x.
Proof. intros Hxy. unfold In3.S. apply exp_increasing. unfold In3.m0. lra. Qed.

(** C1.  For the constant-risk model of In[3] (m0 = 0.1) the survival
    function S(t) = exp(-m0*t) solves the hazard equation: at every t >= 0
    it has a derivative, and minus any derivative of S at t divided by S(t)
    is the constant risk m(t) = m0. *)
Theorem constant_hazard_equation (x : R) :
  0 <= x ->
  (exists dS, derivable_pt_lim In3.S x dS)
  /\ (forall dS, derivable_pt_lim In3.S x dS -> - dS / In3.S x = In3.m x)
  /\ In3.m x = 0.1.
Proof.
  intros _. split; [|split].
  - exists (- In3.m0 * In3.S x). apply S_derive.
  - intros dS HdS.
    rewrite (uniqueness_limite In3.S x dS (- In3.m0 * In3.S x) HdS (S_derive x)).
    unfold In3.m. assert (0 < In3.S x) by apply exp_pos. field. lra.
  - reflexivity.
Qed.

Lemma constant_hazard_equation_witness :
  0 <= 20
  /\ (exists dS, derivable_pt_lim In3.S 20 dS)
  /\ (forall dS, derivable_pt_lim In3.S 20 dS -> - dS / In3.S 20 = In3.m 20)
  /\ In3.m 20 = 0.1.
Proof. split; [lra | apply (constant_hazard_equation 20); lra]. Defined.

(** C10.  The survival values In[3] plots, exp(-0.1*t) over
    t = linspace(0, 20, 200), all lie in (0, 1], the first grid point is 0
    and the value there is 1, and the values strictly decrease along the
    grid. *)
Theorem survival_curve_invariant :
  Forall (fun y => 0 < y <= 1) (snd In3.plot1)
  /\ head In3.t = Some 0 /\ head (snd In3.plot1) = Some 1
  /\ StronglySorted Rgt (snd In3.plot1)
  /\ length (snd In3.plot1) = 200%nat.
Proof.
  rewrite plot1_tabulates_S. cbn [snd]. rewrite In3_t_points, map_map.
  split; [|split; [|split; [|split]]].
  - apply Forall_forall. intros y Hy.
    apply list_elem_of_In, in_map_iff in Hy as (i & <- & _).
    apply S_range. apply Rmult_le_pos; [apply pos_INR | lra].
  - simpl. f_equal. ring.
  - simpl. f_equal. unfold In3.S. rewrite <- exp_0. f_equal. ring.
  - apply sorted_map_seq. intros i j Hij. apply S_decreasing.
    apply Rmult_lt_compat_r; [lra | by apply lt_INR].
  - by rewrite length_map, length_seq.
Qed.

Context `{SciStack}.

(** ** In[1] and In[2]: death and survival *)

(** C8.  In[1] and In[2] build the same distribution norm(loc=4, scale=1.5)
    and the same 100-point grid and plot against the same abscissas.  Each
    plots 100 ordinates: at the grid point t_i, In[1] plots cdf(t_i), In[2]
    plots 1 - cdf(t_i), and the two add up to 1. *)
Theorem survival_complements_death :
  In2.rv = In1.rv /\ In2.t = In1.t /\ length In1.t = 100%nat
  /\ fst In2.plot = fst In1.plot
  /\ Forall2 (fun s f => s + f = 1) (snd In2.plot) (snd In1.plot)
  /\ length (snd In1.plot) = 100%nat /\ length (snd In2.plot) = 100%nat
  /\ (forall i, (i < 100)%nat ->
        nth i (snd In1.plot) 0 = norm_cdf 4 1.5 (nth i In1.t 0)
        /\ nth i (snd In2.plot) 0 = 1 - norm_cdf 4 1.5 (nth i In2.t 0)
        /\ nth i (snd In2.plot) 0 + nth i (snd In1.plot) 0 = 1).
Proof.
  assert (Hlen : length In1.t = 100%nat) by apply linspace_length.
  split; [reflexivity|]. split; [reflexivity|].
  split; [exact Hlen|]. split; [reflexivity|].
  unfold In2.plot, In1.plot, rsub_scalar, cdf. cbn [snd].
  change In2.t with In1.t. change In2.rv with In1.rv. cbn [In1.rv loc scale].
  split; [|split; [|split]].
  - clear Hlen. induction In1.t as [|x l IH]; simpl; constructor; [ring | exact IH].
  - by rewrite length_map.
  - by rewrite !length_map.
  - intros i Hi.
    rewrite (nth_map_lt (norm_cdf 4 1.5) In1.t 0 0 i) by lia.
    rewrite (nth_map_lt (fun x => 1 - x) (map (norm_cdf 4 1.5) In1.t) 0 0 i)
      by (rewrite length_map; lia).
    rewrite (nth_map_lt (norm_cdf 4 1.5) In1.t 0 0 i) by lia.
    split; [reflexivity|]. split; [reflexivity | ring].
Qed.

(** ** In[6]: the synthetic data *)

(** Seeding first makes the rows independent of the state before. *)
Lemma seed_then_draw (g1 g2 : rng) :
  In6.rows (seq 0 In6.N) (np_random_seed 19680801 g1)
  = In6.rows (seq 0 In6.N) (np_random_seed 19680801 g2).
Proof. by rewrite (seed_forgets 19680801 g1 g2). Qed.

(** C9.  In[6] computes the same data whatever state the generator was in
    when the cell started, and leaves the generator in the same state:
    np.random.seed(19680801) comes before the first draw. *)
Theorem In6_data_deterministic (g1 g2 : rng) : In6.data g1 = In6.data g2.
Proof. unfold In6.data. rewrite (seed_then_draw g1 g2). reflexivity. Qed.

End CurveFacts.

(** * Facts about the interpreter *)

Import Notebook.
Local Open Scope string_scope.

Set Warnings "-clear-no-such-hyp".

(** Induction over expressions and statements, through the lists they
    contain. *)
Lemma expr_ind' (P : expr -> Prop) :
  (forall x, P (EName x)) ->
  (forall c, P (EConst c)) ->
  (forall e a, P e -> P (EAttr e a)) ->
  (forall f args kwargs, P f -> Forall P args ->
     Forall (fun kw => P (snd kw)) kwargs -> P (ECall f args kwargs)) ->
  (forall op l r, P l -> P r -> P (EBinOp op l r)) ->
  (forall e, P e -> P (ENeg e)) ->
  (forall e i, P e -> P i -> P (ESubscript e i)) ->
  (forall es, Forall P es -> P (EList es)) ->
  (forall es, Forall P es -> P (ETuple es)) ->
  (forall body x iter, P body -> P iter -> P (EListComp body x iter)) ->
  forall e, P e.
Proof.
  intros Hn Hc Ha Hcall Hb Hneg Hs Hl Ht Hlc.
  fix IH 1. intros e.
  assert (Hall : forall es, Forall P es).
  { fix IHes 1. intros [|e' es]; constructor; [apply IH | apply IHes]. }
  destruct e.
  - apply Hn.
  - apply Hc.
  - apply Ha, IH.
  - apply Hcall; [apply IH | apply Hall |].
    revert kwargs. fix IHkw 1. intros [|[k e'] kw]; constructor; [apply IH | apply IHkw].
  - apply Hb; apply IH.
  - apply Hneg, IH.
  - apply Hs; apply IH.
  - apply Hl, Hall.
  - apply Ht, Hall.
  - apply Hlc; apply IH.
Qed.

Lemma stmt_ind' (P : stmt -> Prop) :
  (forall m a, P (SImportAs m a)) ->
  (forall m n, P (SFromImport m n)) ->
  (forall tgt e, P (SAssign tgt e)) ->
  (forall e, P (SExpr e)) ->
  (forall c body orelse, Forall P body -> Forall P orelse -> P (SIf c body orelse)) ->
  (forall x it body, Forall P body -> P (SFor x it body)) ->
  (forall body handler, Forall P body -> Forall P handler -> P (STry body handler)) ->
  forall s, P s.
Proof.
  intros Hi Hf Ha He Hif Hfor Ht.
  fix IH 1. intros s.
  assert (Hall : forall b, Forall P b).
  { fix IHb 1. intros [|s' b]; constructor; [apply IH | apply IHb]. }
  destruct s.
  - apply Hi.
  - apply Hf.
  - apply Ha.
  - apply He.
  - apply Hif; apply Hall.
  - apply Hfor, Hall.
  - apply Ht; apply Hall.
Qed.


Section Facts.
Context {L : Library}.



Lemma faithful_raise_name {A} x : faithful (raise (NameError x) : M A).
Proof. intros s. exists []. simpl. rewrite app_nil_r. split; [done|]. left. split; [constructor | done]. Qed.












Lemma triple_ret {A} (a : A) (Q : A -> state -> Prop) E : triple (Q a) (ret a) Q E.
Proof. by intros s. Qed.

Lemma triple_bind {A B} P (m : M A) (k : A -> M B) Q Q' E :
  triple P m Q E -> (forall a, triple (Q a) (k a) Q' E) -> triple P (bind m k) Q' E.
Proof.
  intros Hm Hk s HP. unfold bind. specialize (Hm s HP).
  destruct (m s) as [[a|e] s1]; [by apply Hk | done].
Qed.

Lemma triple_conseq {A} (P P' : state -> Prop) (m : M A) (Q Q' : A -> state -> Prop)
    (E E' : exn -> state -> Prop) :
  triple P m Q E ->
  (forall s, P' s -> P s) -> (forall a s, Q a s -> Q' a s) ->
  (forall e s, E e s -> E' e s) -> triple P' m Q' E'.
Proof.
  intros Hm HP HQ HE s Hs. specialize (Hm s (HP s Hs)).
  destruct (m s) as [[a|e] s1]; auto.
Qed.

Lemma triple_map_m {A B} (I : state -> Prop) (f : A -> M B) l E :
  Forall (fun a => triple I (f a) (fun _ => I) E) l ->
  triple I (map_m f l) (fun _ => I) E.
Proof.
  induction 1 as [|a l Ha _ IH]; simpl; [by apply (triple_ret _ (fun _ => I))|].
  eapply triple_bind; [exact Ha|]. intros b. simpl.
  eapply triple_bind; [exact IH|]. intros bs. by apply (triple_ret _ (fun _ => I)).
Qed.

Lemma triple_iter_m {A} (I : state -> Prop) (f : A -> M unit) l E :
  Forall (fun a => triple I (f a) (fun _ => I) E) l ->
  triple I (iter_m f l) (fun _ => I) E.
Proof.
  induction 1 as [|a l Ha _ IH]; simpl; [by apply (triple_ret _ (fun _ => I))|].
  eapply triple_bind; [exact Ha|]. by intros [].
Qed.

(** Operations on objects never touch the namespace. *)
Lemma triple_do_prim (I : gmap string value -> Prop) p (E : exn -> state -> Prop) :
  (forall e s, I (globals s) -> E (LibError e) s) ->
  triple (fun s => I (globals s)) (do_prim p) (fun _ s => I (globals s)) E.
Proof.
  intros HE s HI. unfold do_prim.
  destruct (perform p (world s)) as [[v|e] w]; simpl; [done|]. by apply HE.
Qed.

Lemma union_list_map_subseteq {A} (f : A -> gset string) (l : list A) a :
  a ∈ l -> f a ⊆ ⋃ (map f l).
Proof. induction 1; simpl; set_solver. Qed.

Lemma Forall_scoped {A} (f : A -> gset string) (P : A -> Prop) (l : list A) (X : gset string)
    (Q : A -> Prop) :
  ⋃ (map f l) ⊆ X ->
  Forall (fun a => f a ⊆ X -> Q a) l -> Forall Q l.
Proof.
  intros HX Hl. apply Forall_forall. intros a Ha.
  rewrite Forall_forall in Hl. apply Hl; [done|].
  pose proof (union_list_map_subseteq f l a Ha). set_solver.
Qed.

Lemma triple_lookup_name loc x g :
  x ∈ dom loc ∪ visible g ->
  triple (fun s => globals s = g) (lookup_name loc x) (fun _ s => globals s = g)
    (fun e s => globals s = g /\ not_name_error e).
Proof.
  intros Hx s <-. unfold lookup_name.
  destruct (loc !! x) eqn:Hl; [done|].
  destruct (globals s !! x) eqn:Hg; [done|].
  case_bool_decide as Hb; [done|]. exfalso.
  apply not_elem_of_dom in Hl, Hg. unfold visible in Hx.
  rewrite !elem_of_union, elem_of_list_to_set in Hx. tauto.
Qed.

Lemma eval_scoped e : forall loc g,
  fv e ⊆ dom loc ∪ visible g ->
  triple (fun s => globals s = g) (eval loc e) (fun _ s => globals s = g)
    (fun e s => globals s = g /\ not_name_error e).
Proof.
  pose (E := fun (g : gmap string value) (e' : exn) (s : state) => globals s = g /\ not_name_error e').
  assert (Hprim : forall g p, triple (fun s => globals s = g) (do_prim p)
                                (fun _ s => globals s = g) (E g)).
  { intros g p. apply (triple_do_prim (fun g' => g' = g)). intros e' s Hs. split; [exact Hs | by intros x]. }
  assert (Hret : forall g (A : Type) (a : A), triple (fun s => globals s = g) (ret a)
                                (fun _ s => globals s = g) (E g)).
  { intros g A a. apply (triple_ret a (fun _ s => globals s = g)). }
  induction e as [x|c|e a IH|f args kw IHf IHa IHk|op l r IHl IHr|e IH|e i IHe IHi
                 |es IH|es IH|body x iter IHb IHi] using expr_ind';
    intros loc g Hfv; simpl in Hfv |- *; fold (E g).
  - apply triple_lookup_name. set_solver.
  - apply Hret.
  - eapply triple_bind; [by apply IH|]. intros o. apply Hprim.
  - eapply triple_bind; [apply IHf; set_solver|]. intros fv'. simpl.
    eapply triple_bind.
    { apply (triple_map_m (fun s => globals s = g)).
      eapply (Forall_scoped fv (fun _ => True) args (dom loc ∪ visible g)); [set_solver|].
      eapply Forall_impl; [exact IHa|]. simpl. auto. }
    intros avs. simpl. eapply triple_bind.
    { apply (triple_map_m (fun s => globals s = g)).
      eapply (Forall_scoped (fun kw => fv (snd kw)) (fun _ => True) kw (dom loc ∪ visible g));
        [set_solver|].
      eapply Forall_impl; [exact IHk|]. simpl. intros kw' Hkw Hsub.
      eapply triple_bind; [by apply Hkw|]. intros v. apply Hret. }
    intros kvs. apply Hprim.
  - eapply triple_bind; [apply IHl; set_solver|]. intros a. simpl.
    eapply triple_bind; [apply IHr; set_solver|]. intros b. apply Hprim.
  - eapply triple_bind; [by apply IH|]. intros a. apply Hprim.
  - eapply triple_bind; [apply IHe; set_solver|]. intros a. simpl.
    eapply triple_bind; [apply IHi; set_solver|]. intros b. apply Hprim.
  - eapply triple_bind; [|intros; apply Hret].
    apply (triple_map_m (fun s => globals s = g)).
    eapply (Forall_scoped fv (fun _ => True) es (dom loc ∪ visible g)); [set_solver|].
    eapply Forall_impl; [exact IH|]. simpl. auto.
  - eapply triple_bind; [|intros; apply Hret].
    apply (triple_map_m (fun s => globals s = g)).
    eapply (Forall_scoped fv (fun _ => True) es (dom loc ∪ visible g)); [set_solver|].
    eapply Forall_impl; [exact IH|]. simpl. auto.
  - eapply triple_bind; [apply IHi; set_solver|]. intros it. simpl.
    eapply triple_bind; [apply Hprim|]. intros l. simpl.
    eapply triple_bind; [|intros; apply Hret].
    apply (triple_map_m (fun s => globals s = g)).
    apply Forall_forall. intros v _. apply IHb.
    rewrite dom_insert_L.
    intros y Hy. destruct (decide (y = x)) as [->|Hne].
    { by apply elem_of_union_l, elem_of_union_l, elem_of_singleton. }
    assert (Hin : y ∈ dom loc ∪ visible g).
    { apply Hfv, elem_of_union_r, elem_of_difference. by rewrite elem_of_singleton. }
    apply elem_of_union in Hin as [Hin|Hin];
      [by apply elem_of_union_l, elem_of_union_r | by apply elem_of_union_r].
Qed.

Lemma eval_scoped_inv e loc (I : gmap string value -> Prop) :
  (forall g, I g -> fv e ⊆ dom loc ∪ visible g) ->
  triple (fun s => I (globals s)) (eval loc e) (fun _ s => I (globals s))
    (fun e s => I (globals s) /\ not_name_error e).
Proof.
  intros HI s Hs. pose proof (eval_scoped e loc (globals s) (HI _ Hs) s eq_refl) as H.
  destruct (eval loc e s) as [[a|e'] s1]; simpl in *.
  - by rewrite H.
  - destruct H as [-> ?]. done.
Qed.

Lemma scoped_mono X Y s : X ⊆ Y -> scoped Y s -> scoped X s.
Proof. unfold scoped. set_solver. Qed.

Lemma visible_insert x v (g : gmap string value) :
  visible (<[x := v]> g) = {[x]} ∪ visible g.
Proof. unfold visible. by rewrite dom_insert_L, (assoc_L (∪)). Qed.

Lemma bind_name_scoped X x v :
  triple (scoped X) (bind_name x v) (fun _ => scoped (X ∪ {[x]})) (scope_exn X).
Proof.
  intros s Hs. unfold scoped in *. cbn [bind_name globals]. rewrite visible_insert.
  set_solver.
Qed.

Lemma eval_stmt_scoped X e :
  fv e ⊆ X ->
  triple (scoped X) (eval ∅ e) (fun _ => scoped X) (scope_exn X).
Proof.
  intros Hfv. apply (eval_scoped_inv e ∅ (fun g => X ⊆ visible g)).
  intros g Hg. set_solver.
Qed.

Lemma do_prim_scoped X p :
  triple (scoped X) (do_prim p) (fun _ => scoped X) (scope_exn X).
Proof.
  apply (triple_do_prim (fun g => X ⊆ visible g)). intros e s Hs. split; [done|]. by intros x.
Qed.

Lemma unpack_scoped xs : forall vs X,
  length vs = length xs ->
  triple (scoped X) (iter_m (fun xv : string * value => bind_name (fst xv) (snd xv)) (zip xs vs))
    (fun _ => scoped (X ∪ list_to_set xs)) (scope_exn X).
Proof.
  induction xs as [|x xs IH]; intros [|v vs] X Hlen; simpl in *; try discriminate.
  - intros s Hs. simpl. eapply scoped_mono; [|exact Hs]. set_solver.
  - eapply triple_bind; [apply bind_name_scoped|]. intros []. simpl.
    eapply triple_conseq; [apply (IH vs (X ∪ {[x]})); lia | done | |].
    + intros ? s Hs. eapply scoped_mono; [|exact Hs]. set_solver.
    + intros e s [Hs He]. split; [|done]. eapply scoped_mono; [|exact Hs]. set_solver.
Qed.

Lemma assign_scoped X tgt v :
  target_reads tgt ⊆ X ->
  triple (scoped X) (assign tgt v) (fun _ => scoped (X ∪ target_binds tgt)) (scope_exn X).
Proof.
  destruct tgt as [x|xs|o k]; simpl; intros Hr.
  - apply bind_name_scoped.
  - eapply triple_bind; [apply do_prim_scoped|]. intros l. simpl.
    case_decide as Hlen; [by apply unpack_scoped|].
    intros s Hs. simpl. split; [done|]. by intros x.
  - eapply triple_bind; [apply eval_stmt_scoped; set_solver|]. intros ov. simpl.
    eapply triple_bind; [apply eval_stmt_scoped; set_solver|]. intros kv. simpl.
    eapply triple_bind; [apply do_prim_scoped|]. intros ?. simpl.
    intros s Hs. simpl. eapply scoped_mono; [|exact Hs]. set_solver.
Qed.

Lemma free_block_cons s b : free_block (s :: b) = free s ∪ (free_block b ∖ defs s).
Proof. reflexivity. Qed.
Lemma defs_block_cons s b : defs_block (s :: b) = defs s ∪ defs_block b.
Proof. reflexivity. Qed.
Lemma free_if c b1 b2 : free (SIf c b1 b2) = fv c ∪ free_block b1 ∪ free_block b2.
Proof. reflexivity. Qed.
Lemma free_for x it b : free (SFor x it b) = fv it ∪ (free_block b ∖ {[x]}).
Proof. reflexivity. Qed.
Lemma free_try b h : free (STry b h) = free_block b ∪ free_block h.
Proof. reflexivity. Qed.
Lemma defs_if c b1 b2 : defs (SIf c b1 b2) = defs_block b1 ∩ defs_block b2.
Proof. reflexivity. Qed.
Lemma defs_try b h : defs (STry b h) = defs_block b ∩ defs_block h.
Proof. reflexivity. Qed.

Lemma block_scoped b :
  Forall stmt_scoped b ->
  forall X, free_block b ⊆ X ->
    triple (scoped X) (iter_m exec b) (fun _ => scoped (X ∪ defs_block b)) (scope_exn X).
Proof.
  induction 1 as [|s b Hs _ IH]; intros X Hfree.
  - intros st Hst. simpl. eapply scoped_mono; [|exact Hst]. unfold defs_block. set_solver.
  - rewrite free_block_cons in Hfree. rewrite defs_block_cons. cbn [iter_m].
    eapply triple_bind; [apply Hs; set_solver|]. intros [].
    eapply triple_conseq; [apply (IH (X ∪ defs s)) | done | |].
    + intros y Hy. destruct (decide (y ∈ defs s)); set_solver.
    + intros ? st Hst. eapply scoped_mono; [|exact Hst]. set_solver.
    + intros e st [Hst He]. split; [|done]. eapply scoped_mono; [|exact Hst]. set_solver.
Qed.

Lemma exec_scoped s : stmt_scoped s.
Proof.
  induction s as [m a|m n|tgt e|e|c body orelse IHb IHo|x it body IHb|body handler IHb IHh]
    using stmt_ind'; intros X Hfree.
  - eapply triple_bind; [apply do_prim_scoped|]. intros v. apply bind_name_scoped.
  - eapply triple_bind; [apply do_prim_scoped|]. intros v. apply bind_name_scoped.
  - simpl in Hfree. eapply triple_bind; [apply eval_stmt_scoped; set_solver|]. intros v.
    apply assign_scoped. set_solver.
  - simpl in Hfree. eapply triple_bind; [by apply eval_stmt_scoped|]. intros v.
    intros st Hst. simpl. eapply scoped_mono; [|exact Hst]. set_solver.
  - rewrite free_if in Hfree. rewrite defs_if. cbn [exec].
    eapply triple_bind; [apply eval_stmt_scoped; set_solver|]. intros cv.
    eapply triple_bind; [apply do_prim_scoped|]. intros bv.
    destruct (truth bv).
    + eapply triple_conseq; [apply (block_scoped body IHb X) | done | | done].
      * set_solver.
      * intros ? st Hst. eapply scoped_mono; [|exact Hst]. set_solver.
    + eapply triple_conseq; [apply (block_scoped orelse IHo X) | done | | done].
      * set_solver.
      * intros ? st Hst. eapply scoped_mono; [|exact Hst]. set_solver.
  - rewrite free_for in Hfree. cbn [exec defs].
    eapply triple_bind; [apply eval_stmt_scoped; set_solver|]. intros itv.
    eapply triple_bind; [apply do_prim_scoped|]. intros l.
    eapply triple_conseq; [apply (triple_iter_m (scoped X)) | done | | done].
    + apply Forall_forall. intros v _.
      eapply triple_bind; [apply bind_name_scoped|]. intros [].
      eapply triple_conseq; [apply (block_scoped body IHb (X ∪ {[x]})) | done | |].
      * intros y Hy. destruct (decide (y = x)) as [->|]; set_solver.
      * intros ? st Hst. eapply scoped_mono; [|exact Hst]. set_solver.
      * intros e st [Hst He]. split; [|done]. eapply scoped_mono; [|exact Hst]. set_solver.
    + intros ? st Hst. eapply scoped_mono; [|exact Hst]. set_solver.
  - rewrite free_try in Hfree. rewrite defs_try. cbn [exec].
    intros st Hst.
    assert (Hfb : free_block body ⊆ X) by set_solver.
    assert (Hfh : free_block handler ⊆ X) by set_solver.
    pose proof (block_scoped body IHb X Hfb st Hst) as Hb.
    destruct (iter_m exec body st) as [[[]|e] st1].
    + eapply scoped_mono; [|exact Hb]. set_solver.
    + destruct Hb as [Hst1 _].
      pose proof (block_scoped handler IHh X Hfh st1 Hst1) as Hh.
      destruct (iter_m exec handler st1) as [[[]|e'] st2]; [|done].
      eapply scoped_mono; [|exact Hh]. set_solver.
Qed.

Lemma cell_scoped (c : cell) X :
  free_block c ⊆ X ->
  triple (scoped X) (exec_cell c) (fun _ => scoped (X ∪ defs_block c)) (scope_exn X).
Proof. apply block_scoped, Forall_forall. intros s _. apply exec_scoped. Qed.

(** Evaluating an expression never changes the namespace. *)
Lemma eval_keeps e : forall loc (I : gmap string value -> Prop),
  triple (fun s => I (globals s)) (eval loc e) (fun _ s => I (globals s))
    (fun _ s => I (globals s)).
Proof.
  assert (Hprim : forall (I : gmap string value -> Prop) p,
            triple (fun s => I (globals s)) (do_prim p)
              (fun _ s => I (globals s)) (fun _ s => I (globals s))).
  { intros I p. by apply (triple_do_prim I). }
  assert (Hret : forall (I : gmap string value -> Prop) (A : Type) (a : A),
            triple (fun s => I (globals s)) (ret a)
              (fun _ s => I (globals s)) (fun _ s => I (globals s))).
  { intros I A a. apply (triple_ret a (fun _ s => I (globals s))). }
  induction e as [x|c|e a IH|f args kw IHf IHa IHk|op l r IHl IHr|e IH|e i IHe IHi
                 |es IH|es IH|body x iter IHb IHi] using expr_ind';
    intros loc I; cbn [eval].
  - intros s Hs. unfold lookup_name.
    destruct (loc !! x); [done|]. destruct (globals s !! x); [done|].
    by case_bool_decide.
  - apply Hret.
  - eapply triple_bind; [apply IH|]. intros o. apply Hprim.
  - eapply triple_bind; [apply IHf|]. intros fv'.
    eapply triple_bind.
    { apply (triple_map_m (fun s => I (globals s))).
      eapply Forall_impl; [exact IHa|]. intros a Ha. apply Ha. }
    intros avs. eapply triple_bind.
    { apply (triple_map_m (fun s => I (globals s))).
      eapply Forall_impl; [exact IHk|]. intros kw' Hkw.
      eapply triple_bind; [apply Hkw|]. intros v. apply Hret. }
    intros kvs. apply Hprim.
  - eapply triple_bind; [apply IHl|]. intros a.
    eapply triple_bind; [apply IHr|]. intros b. apply Hprim.
  - eapply triple_bind; [apply IH|]. intros a. apply Hprim.
  - eapply triple_bind; [apply IHe|]. intros a.
    eapply triple_bind; [apply IHi|]. intros b. apply Hprim.
  - eapply triple_bind; [|intros; apply Hret].
    apply (triple_map_m (fun s => I (globals s))).
    eapply Forall_impl; [exact IH|]. intros a Ha. apply Ha.
  - eapply triple_bind; [|intros; apply Hret].
    apply (triple_map_m (fun s => I (globals s))).
    eapply Forall_impl; [exact IH|]. intros a Ha. apply Ha.
  - eapply triple_bind; [apply IHi|]. intros it.
    eapply triple_bind; [apply Hprim|]. intros l.
    eapply triple_bind; [|intros; apply Hret].
    apply (triple_map_m (fun s => I (globals s))).
    apply Forall_forall. intros v _. apply IHb.
Qed.

Lemma bind_name_framed A g x v :
  x ∈ A -> triple (framed A g) (bind_name x v) (fun _ => framed A g) (fun _ => framed A g).
Proof.
  intros Hx s Hs y Hy. cbn [bind_name globals snd].
  rewrite lookup_insert_ne; [by apply Hs | set_solver].
Qed.

Lemma do_prim_framed A g p :
  triple (framed A g) (do_prim p) (fun _ => framed A g) (fun _ => framed A g).
Proof. by apply (triple_do_prim (fun g' => forall x, x ∉ A -> g' !! x = g !! x)). Qed.

Lemma eval_framed A g loc e :
  triple (framed A g) (eval loc e) (fun _ => framed A g) (fun _ => framed A g).
Proof. apply (eval_keeps e loc (fun g' => forall x, x ∉ A -> g' !! x = g !! x)). Qed.

Lemma assign_framed A g tgt v :
  target_binds tgt ⊆ A ->
  triple (framed A g) (assign tgt v) (fun _ => framed A g) (fun _ => framed A g).
Proof.
  destruct tgt as [x|xs|o k]; cbn [assign target_binds]; intros HA.
  - apply bind_name_framed. set_solver.
  - eapply triple_bind; [apply do_prim_framed|]. intros l.
    case_decide; [|by intros s Hs].
    apply (triple_iter_m (framed A g)), Forall_forall. intros [x v'] Hin.
    apply bind_name_framed. apply HA, elem_of_list_to_set.
    apply list_elem_of_In in Hin. apply in_combine_l in Hin.
    by apply list_elem_of_In.
  - eapply triple_bind; [apply eval_framed|]. intros ov.
    eapply triple_bind; [apply eval_framed|]. intros kv.
    eapply triple_bind; [apply do_prim_framed|]. intros ?. by intros s Hs.
Qed.

Lemma assigned_block_cons s b : assigned_block (s :: b) = assigned s ∪ assigned_block b.
Proof. reflexivity. Qed.

Lemma block_framed A g b :
  Forall (fun s => assigned s ⊆ A ->
            triple (framed A g) (exec s) (fun _ => framed A g) (fun _ => framed A g)) b ->
  assigned_block b ⊆ A ->
  triple (framed A g) (iter_m exec b) (fun _ => framed A g) (fun _ => framed A g).
Proof.
  intros Hall Hsub. apply (triple_iter_m (framed A g)).
  induction Hall as [|s b Hs _ IH]; constructor.
  - apply Hs. rewrite assigned_block_cons in Hsub. set_solver.
  - apply IH. rewrite assigned_block_cons in Hsub. set_solver.
Qed.

Lemma exec_framed A g s :
  assigned s ⊆ A ->
  triple (framed A g) (exec s) (fun _ => framed A g) (fun _ => framed A g).
Proof.
  induction s as [m a|m n|tgt e|e|c body orelse IHb IHo|x it body IHb|body handler IHb IHh]
    using stmt_ind'; intros HA.
  - eapply triple_bind; [apply do_prim_framed|]. intros v. apply bind_name_framed.
    cbn [assigned] in HA. set_solver.
  - eapply triple_bind; [apply do_prim_framed|]. intros v. apply bind_name_framed.
    cbn [assigned] in HA. set_solver.
  - eapply triple_bind; [apply eval_framed|]. intros v. by apply assign_framed.
  - eapply triple_bind; [apply eval_framed|]. intros v. by intros st Hst.
  - change (assigned (SIf c body orelse)) with (assigned_block body ∪ assigned_block orelse) in HA.
    cbn [exec]. eapply triple_bind; [apply eval_framed|]. intros cv.
    eapply triple_bind; [apply do_prim_framed|]. intros bv.
    destruct (truth bv); apply block_framed; [done | set_solver | done | set_solver].
  - change (assigned (SFor x it body)) with ({[x]} ∪ assigned_block body) in HA.
    cbn [exec]. eapply triple_bind; [apply eval_framed|]. intros itv.
    eapply triple_bind; [apply do_prim_framed|]. intros l.
    apply (triple_iter_m (framed A g)), Forall_forall. intros v _.
    eapply triple_bind; [apply bind_name_framed; set_solver|]. intros [].
    apply block_framed; [done | set_solver].
  - change (assigned (STry body handler))
      with (assigned_block body ∪ assigned_block handler) in HA.
    cbn [exec]. intros st Hst.
    pose proof (block_framed A g body IHb ltac:(set_solver) st Hst) as Hb.
    destruct (iter_m exec body st) as [[[]|e] st1]; [done|].
    apply (block_framed A g handler IHh ltac:(set_solver) st1 Hb).
Qed.

Lemma cell_framed (c : cell) s x :
  x ∉ assigned_block c -> globals (snd (exec_cell c s)) !! x = globals s !! x.
Proof.
  intros Hx.
  assert (H : triple (framed (assigned_block c) (globals s)) (exec_cell c)
                (fun _ => framed (assigned_block c) (globals s))
                (fun _ => framed (assigned_block c) (globals s))).
  { apply block_framed; [|done]. apply Forall_forall. intros s' _ ?. by apply exec_framed. }
  specialize (H s (fun _ _ => eq_refl)).
  destruct (exec_cell c s) as [[[]|e] s']; by apply H.
Qed.

Lemma rtriple_ret {A} (a : A) (Q E : state -> state -> Prop) : rtriple Q (ret a) Q E.
Proof. by intros s1 s2 H. Qed.

Lemma rtriple_bind {A B} P (m : M A) (k : A -> M B) Q Q' E :
  rtriple P m Q E -> (forall a, rtriple Q (k a) Q' E) -> rtriple P (bind m k) Q' E.
Proof.
  intros Hm Hk s1 s2 HP. unfold bind. specialize (Hm s1 s2 HP).
  destruct (m s1) as [[a1|e1] s1'], (m s2) as [[a2|e2] s2']; try done.
  destruct Hm as [<- HQ]. by apply Hk.
Qed.

Lemma rtriple_conseq {A} (P P' : state -> state -> Prop) (m : M A) Q Q' E E' :
  rtriple P m Q E ->
  (forall s1 s2, P' s1 s2 -> P s1 s2) -> (forall s1 s2, Q s1 s2 -> Q' s1 s2) ->
  (forall s1 s2, E s1 s2 -> E' s1 s2) -> rtriple P' m Q' E'.
Proof.
  intros Hm HP HQ HE s1 s2 Hs. specialize (Hm s1 s2 (HP _ _ Hs)).
  destruct (m s1) as [[a1|e1] s1'], (m s2) as [[a2|e2] s2']; try done;
    destruct Hm; split; auto.
Qed.

Lemma rtriple_map_m {A B} (I : state -> state -> Prop) (f : A -> M B) l :
  Forall (fun a => rtriple I (f a) I I) l -> rtriple I (map_m f l) I I.
Proof.
  induction 1 as [|a l Ha _ IH]; cbn [map_m]; [apply rtriple_ret|].
  eapply rtriple_bind; [exact Ha|]. intros b.
  eapply rtriple_bind; [exact IH|]. intros bs. apply rtriple_ret.
Qed.

Lemma rtriple_iter_m {A} (I : state -> state -> Prop) (f : A -> M unit) l :
  Forall (fun a => rtriple I (f a) I I) l -> rtriple I (iter_m f l) I I.
Proof.
  induction 1 as [|a l Ha _ IH]; cbn [iter_m]; [apply rtriple_ret|].
  eapply rtriple_bind; [exact Ha|]. by intros [].
Qed.

Lemma agree_mono X Y s1 s2 : X ⊆ Y -> agree Y s1 s2 -> agree X s1 s2.
Proof. intros HXY (Hw & Hg). split; [done|]. intros x Hx. apply Hg. set_solver. Qed.

Lemma do_prim_agree X p : rtriple (agree X) (do_prim p) (agree X) (agree X).
Proof.
  intros s1 s2 (Hw & Hg). unfold do_prim. rewrite Hw.
  destruct (perform p (world s2)) as [[v|e] w]; by repeat split.
Qed.

Lemma lookup_name_agree X loc x :
  ({[x]} : gset string) ∖ dom loc ⊆ X ->
  rtriple (agree X) (lookup_name loc x) (agree X) (agree X).
Proof.
  intros HX s1 s2 Hag. unfold lookup_name.
  destruct (loc !! x) eqn:Hl; [done|].
  assert (Hx : x ∈ X).
  { apply HX, elem_of_difference. split; [by apply elem_of_singleton|].
    by apply not_elem_of_dom. }
  destruct Hag as (Hw & Hg). rewrite (Hg x Hx).
  destruct (globals s2 !! x); [by repeat split|].
  case_bool_decide; by repeat split.
Qed.

Lemma bind_name_agree X x v :
  rtriple (agree X) (bind_name x v) (agree (X ∪ {[x]})) (agree X).
Proof.
  intros s1 s2 (Hw & Hg). cbn [bind_name]. split; [done|].
  split; [done|]. intros y Hy. cbn [globals].
  destruct (decide (x = y)) as [->|Hne].
  - by rewrite !lookup_insert_eq.
  - rewrite !lookup_insert_ne by done. apply Hg. set_solver.
Qed.

Lemma eval_agree e : forall loc X,
  fv e ∖ dom loc ⊆ X -> rtriple (agree X) (eval loc e) (agree X) (agree X).
Proof.
  induction e as [x|c|e a IH|f args kw IHf IHa IHk|op l r IHl IHr|e IH|e i IHe IHi
                 |es IH|es IH|body x iter IHb IHi] using expr_ind';
    intros loc X Hfv; cbn [eval]; cbn [fv] in Hfv.
  - by apply lookup_name_agree.
  - apply rtriple_ret.
  - eapply rtriple_bind; [by apply IH|]. intros o. apply do_prim_agree.
  - eapply rtriple_bind; [apply IHf; set_solver|]. intros fv'.
    eapply rtriple_bind.
    { apply rtriple_map_m.
      eapply (Forall_scoped (fun a => fv a ∖ dom loc) (fun _ => True) args X).
      - intros y Hy. apply elem_of_union_list in Hy as (Y & HY & Hy).
        apply list_elem_of_In, in_map_iff in HY as (a & <- & Ha).
        apply list_elem_of_In in Ha.
        pose proof (union_list_map_subseteq fv args a Ha). set_solver.
      - eapply Forall_impl; [exact IHa|]. intros a Ha ?. by apply Ha. }
    intros avs. eapply rtriple_bind.
    { apply rtriple_map_m.
      eapply (Forall_scoped (fun kw => fv (snd kw) ∖ dom loc) (fun _ => True) kw X).
      - intros y Hy. apply elem_of_union_list in Hy as (Y & HY & Hy).
        apply list_elem_of_In, in_map_iff in HY as (a & <- & Ha).
        apply list_elem_of_In in Ha.
        pose proof (union_list_map_subseteq (fun kw => fv (snd kw)) kw a Ha). set_solver.
      - eapply Forall_impl; [exact IHk|]. intros a Ha ?.
        eapply rtriple_bind; [by apply Ha|]. intros v. apply rtriple_ret. }
    intros kvs. apply do_prim_agree.
  - eapply rtriple_bind; [apply IHl; set_solver|]. intros a.
    eapply rtriple_bind; [apply IHr; set_solver|]. intros b. apply do_prim_agree.
  - eapply rtriple_bind; [by apply IH|]. intros a. apply do_prim_agree.
  - eapply rtriple_bind; [apply IHe; set_solver|]. intros a.
    eapply rtriple_bind; [apply IHi; set_solver|]. intros b. apply do_prim_agree.
  - eapply rtriple_bind; [|intros; apply rtriple_ret].
    apply rtriple_map_m.
    eapply (Forall_scoped (fun a => fv a ∖ dom loc) (fun _ => True) es X).
    + intros y Hy. apply elem_of_union_list in Hy as (Y & HY & Hy).
      apply list_elem_of_In, in_map_iff in HY as (a & <- & Ha).
      apply list_elem_of_In in Ha.
      pose proof (union_list_map_subseteq fv es a Ha). set_solver.
    + eapply Forall_impl; [exact IH|]. intros a Ha ?. by apply Ha.
  - eapply rtriple_bind; [|intros; apply rtriple_ret].
    apply rtriple_map_m.
    eapply (Forall_scoped (fun a => fv a ∖ dom loc) (fun _ => True) es X).
    + intros y Hy. apply elem_of_union_list in Hy as (Y & HY & Hy).
      apply list_elem_of_In, in_map_iff in HY as (a & <- & Ha).
      apply list_elem_of_In in Ha.
      pose proof (union_list_map_subseteq fv es a Ha). set_solver.
    + eapply Forall_impl; [exact IH|]. intros a Ha ?. by apply Ha.
  - eapply rtriple_bind; [apply IHi; set_solver|]. intros it.
    eapply rtriple_bind; [apply do_prim_agree|]. intros l.
    eapply rtriple_bind; [|intros; apply rtriple_ret].
    apply rtriple_map_m, Forall_forall. intros v _. apply IHb.
    rewrite dom_insert_L. set_solver.
Qed.

Lemma eval_stmt_agree X e :
  fv e ⊆ X -> rtriple (agree X) (eval ∅ e) (agree X) (agree X).
Proof. intros Hfv. apply eval_agree. set_solver. Qed.

Lemma unpack_agree xs : forall (vs : list value) X,
  rtriple (agree X)
    (iter_m (fun xv : string * value => bind_name (fst xv) (snd xv)) (zip xs vs))
    (agree X) (agree X).
Proof.
  intros vs X. apply rtriple_iter_m, Forall_forall. intros [x v] _.
  eapply rtriple_conseq; [apply bind_name_agree | done | | done].
  intros s1 s2. apply agree_mono. set_solver.
Qed.

Lemma unpack_agree_binds xs : forall (vs : list value) X,
  length vs = length xs ->
  rtriple (agree X)
    (iter_m (fun xv : string * value => bind_name (fst xv) (snd xv)) (zip xs vs))
    (agree (X ∪ list_to_set xs)) (agree X).
Proof.
  induction xs as [|x xs IH]; intros [|v vs] X Hlen; cbn in Hlen; try discriminate.
  - intros s1 s2 Hag. cbn. split; [done|]. eapply agree_mono; [|exact Hag]. set_solver.
  - cbn [zip zip_with iter_m fst snd].
    eapply rtriple_bind; [apply bind_name_agree|]. intros [].
    eapply rtriple_conseq; [apply (IH vs (X ∪ {[x]})); lia | done | |].
    + intros s1 s2. apply agree_mono. set_solver.
    + intros s1 s2. apply agree_mono. set_solver.
Qed.

Lemma assign_agree X tgt v :
  target_reads tgt ⊆ X ->
  rtriple (agree X) (assign tgt v) (agree (X ∪ target_binds tgt)) (agree X).
Proof.
  destruct tgt as [x|xs|o k]; cbn [assign target_binds target_reads]; intros Hr.
  - apply bind_name_agree.
  - eapply rtriple_bind; [apply do_prim_agree|]. intros l.
    case_decide as Hlen; [by apply unpack_agree_binds|].
    intros s1 s2 Hag. by cbn.
  - eapply rtriple_bind; [apply eval_stmt_agree; set_solver|]. intros ov.
    eapply rtriple_bind; [apply eval_stmt_agree; set_solver|]. intros kv.
    eapply rtriple_bind; [apply do_prim_agree|]. intros ?.
    intros s1 s2 Hag. cbn. split; [done|]. eapply agree_mono; [|exact Hag]. set_solver.
Qed.

Lemma block_agree b :
  Forall stmt_agree b ->
  forall X, free_block b ⊆ X ->
    rtriple (agree X) (iter_m exec b) (agree (X ∪ defs_block b)) (agree X).
Proof.
  induction 1 as [|s b Hs _ IH]; intros X Hfree.
  - intros s1 s2 Hag. cbn. split; [done|]. eapply agree_mono; [|exact Hag].
    unfold defs_block. set_solver.
  - rewrite free_block_cons in Hfree. rewrite defs_block_cons. cbn [iter_m].
    eapply rtriple_bind; [apply Hs; set_solver|]. intros [].
    eapply rtriple_conseq; [apply (IH (X ∪ defs s)) | done | |].
    + intros y Hy. destruct (decide (y ∈ defs s)); set_solver.
    + intros s1 s2. apply agree_mono. set_solver.
    + intros s1 s2. apply agree_mono. set_solver.
Qed.

Lemma exec_agree s : stmt_agree s.
Proof.
  induction s as [m a|m n|tgt e|e|c body orelse IHb IHo|x it body IHb|body handler IHb IHh]
    using stmt_ind'; intros X Hfree.
  - eapply rtriple_bind; [apply do_prim_agree|]. intros v. apply bind_name_agree.
  - eapply rtriple_bind; [apply do_prim_agree|]. intros v. apply bind_name_agree.
  - cbn [free] in Hfree. eapply rtriple_bind; [apply eval_stmt_agree; set_solver|].
    intros v. apply assign_agree. set_solver.
  - cbn [free] in Hfree. eapply rtriple_bind; [by apply eval_stmt_agree|]. intros v.
    intros s1 s2 Hag. cbn. split; [done|]. eapply agree_mono; [|exact Hag]. set_solver.
  - rewrite free_if in Hfree. rewrite defs_if. cbn [exec].
    eapply rtriple_bind; [apply eval_stmt_agree; set_solver|]. intros cv.
    eapply rtriple_bind; [apply do_prim_agree|]. intros bv.
    destruct (truth bv).
    + eapply rtriple_conseq; [apply (block_agree body IHb X) | done | | done].
      * set_solver.
      * intros s1 s2. apply agree_mono. set_solver.
    + eapply rtriple_conseq; [apply (block_agree orelse IHo X) | done | | done].
      * set_solver.
      * intros s1 s2. apply agree_mono. set_solver.
  - rewrite free_for in Hfree. cbn [exec defs].
    eapply rtriple_bind; [apply eval_stmt_agree; set_solver|]. intros itv.
    eapply rtriple_bind; [apply do_prim_agree|]. intros l.
    eapply rtriple_conseq; [apply (rtriple_iter_m (agree X)) | done | | done].
    + apply Forall_forall. intros v _.
      eapply rtriple_bind; [apply bind_name_agree|]. intros [].
      eapply rtriple_conseq; [apply (block_agree body IHb (X ∪ {[x]})) | done | |].
      * intros y Hy. destruct (decide (y = x)) as [->|]; set_solver.
      * intros s1 s2. apply agree_mono. set_solver.
      * intros s1 s2. apply agree_mono. set_solver.
    + intros s1 s2. apply agree_mono. set_solver.
  - rewrite free_try in Hfree. rewrite defs_try. cbn [exec].
    intros s1 s2 Hag.
    assert (Hfb : free_block body ⊆ X) by set_solver.
    assert (Hfh : free_block handler ⊆ X) by set_solver.
    pose proof (block_agree body IHb X Hfb s1 s2 Hag) as Hb.
    destruct (iter_m exec body s1) as [[[]|e1] s1'],
             (iter_m exec body s2) as [[[]|e2] s2']; try done.
    + destruct Hb as [_ Hb]. split; [done|]. eapply agree_mono; [|exact Hb]. set_solver.
    + destruct Hb as [_ Hb].
      pose proof (block_agree handler IHh X Hfh s1' s2' Hb) as Hh.
      destruct (iter_m exec handler s1') as [[[]|e1'] s1''],
               (iter_m exec handler s2') as [[[]|e2'] s2'']; try done.
      destruct Hh as [_ Hh]. split; [done|]. eapply agree_mono; [|exact Hh]. set_solver.
Qed.

Lemma cell_agree (c : cell) :
  rtriple (agree (free_block c)) (exec_cell c)
    (agree (free_block c ∪ defs_block c)) (agree (free_block c)).
Proof. apply block_agree; [|done]. apply Forall_forall. intros s _. apply exec_agree. Qed.

End Facts.

(** * Counting the calls a run makes *)

Section CallFacts.
Context {L : Library}.























(** ** The operations a run performs *)















(** The calls made are the calls among the operations performed. *)
Lemma calls_made_performed s :
  calls_made s = length (List.filter is_OCall (performed s)).
Proof.
  unfold calls_made, performed. induction (trace s) as [|ev t IH]; [done|].
  cbn [List.filter map]. unfold is_call at 1.
  destruct (ev_prim ev); cbn [prim_op is_OCall length]; by rewrite ?IH.
Qed.

End CallFacts.

(** * The cells *)

Section Cells.
Context {L : Library}.

(** Running a block is running its first part and then the rest. *)
Lemma iter_m_app {A} (f : A -> M unit) l1 l2 s :
  iter_m f (l1 ++ l2) s = bind (iter_m f l1) (fun _ => iter_m f l2) s.
Proof.
  revert s. induction l1 as [|a l1 IH]; intros s; [done|].
  cbn [app iter_m]. unfold bind.
  destruct (f a s) as [[[]|e] s1]; [|done]. rewrite IH. reflexivity.
Qed.

(** The script is the concatenation of its cells. *)
Lemma run_concat cells s : run cells s = iter_m exec (concat cells) s.
Proof.
  revert s. induction cells as [|c cells IH]; intros s; [done|].
  cbn [concat]. rewrite iter_m_app. unfold run. cbn [iter_m]. unfold bind.
  unfold exec_cell at 1. destruct (iter_m exec c s) as [[[]|e] s1]; [|done].
  apply IH.
Qed.

Lemma scoped_builtins s : scoped (list_to_set builtin_names) s.
Proof. unfold scoped, visible. apply union_subseteq_r. Qed.

(** A block whose free names are all builtins raises no [NameError],
    whatever the namespace. *)
Lemma closed_block_no_name_error (b : list stmt) s :
  free_block b ⊆ list_to_set builtin_names ->
  no_name_error (fst (iter_m exec b s)).
Proof.
  intros Hfree.
  pose proof (cell_scoped b _ Hfree s (scoped_builtins s)) as H.
  unfold exec_cell in H. destruct (iter_m exec b s) as [[[]|e] s1]; intros x.
  - discriminate.
  - destruct H as [_ He]. intros [= ->]. by apply (He x).
Qed.

Lemma agree_same_outcome (c : cell) s1 s2 :
  agree (free_block c) s1 s2 -> same_outcome c s1 s2.
Proof.
  intros Hag. pose proof (cell_agree c s1 s2 Hag) as H. unfold same_outcome.
  destruct (exec_cell c s1) as [[[]|e1] s1'], (exec_cell c s2) as [[[]|e2] s2'];
    try done; cbn [fst snd].
  - destruct H as (_ & Hw & Hg). repeat split; [done|]. intros _ x Hx. apply Hg. set_solver.
  - destruct H as (-> & Hw & Hg). by repeat split.
Qed.

End Cells.

(** The statements of the script up to line 185, line 186, and the rest. *)
Lemma script_split :
  concat notebook = (upto_line_185 ++ line_186 :: after_line_186)%list.
Proof. reflexivity. Qed.

Lemma cycler_not_builtin : bool_decide ("cycler" ∈ builtin_names) = false.
Proof. vm_compute. reflexivity. Qed.

(** Line 186 raises [NameError] for [cycler] wherever that name is not
    bound: the right-hand side is evaluated first, and its first step is to
    look the function up. *)
Lemma line_186_raises {L : Library} (s : state) :
  globals s !! "cycler" = None ->
  exec line_186 s = (Raise (NameError "cycler"), s).
Proof.
  intros Hc. unfold line_186. cbn [exec eval]. unfold bind, lookup_name.
  by rewrite lookup_empty, Hc, cycler_not_builtin.
Qed.

(** C2 (as amended).  In[1] and In[4] read no name bound elsewhere: run in
    any namespace, the empty one included, they raise no NameError.  In[2]
    and In[3] read names that In[1] binds (or builtins), In[5] reads the name
    In[4] binds, and the cells In[1] to In[5] run in document order from an
    empty namespace raise no NameError. *)
Theorem cells_resolve_their_names (L : Library) :
  (forall s, no_name_error (fst (exec_cell In1 s)))
  /\ (forall s, no_name_error (fst (exec_cell In4 s)))
  /\ free_block In2 ⊆ defs_block In1
  /\ free_block In3 ⊆ defs_block In1 ∪ list_to_set builtin_names
  /\ free_block In5 ⊆ defs_block In4
  /\ (forall w, no_name_error (fst (run [In1; In2; In3; In4; In5] (fresh w)))).
Proof.
  split; [|split; [|split; [|split; [|split]]]].
  - intros s. apply closed_block_no_name_error.
    apply (bool_decide_unpack _). vm_compute. exact I.
  - intros s. apply closed_block_no_name_error.
    apply (bool_decide_unpack _). vm_compute. exact I.
  - apply (bool_decide_unpack _). vm_compute. exact I.
  - apply (bool_decide_unpack _). vm_compute. exact I.
  - apply (bool_decide_unpack _). vm_compute. exact I.
  - intros w. rewrite run_concat. apply closed_block_no_name_error.
    apply (bool_decide_unpack _). vm_compute. exact I.
Qed.

(** C2, the claim as stated fails: In[2] run alone, in an empty namespace,
    raises NameError for [norm] before it calls anything. *)
Lemma In2_alone_raises_NameError :
  exec_cell (L := stub) In2 (fresh (L := stub) tt) = (Raise (NameError "norm"), fresh (L := stub) tt).
Proof. vm_compute. reflexivity. Qed.

(** C3 (as amended).  What a cell does depends on the namespace only through
    the names it reads free: from two states with the same world that agree
    on those names, it ends the same way, leaves the same world and binds its
    names to the same values.  In[1] and In[4] read no name free, so nothing
    an earlier cell bound matters to them; In[2] reads norm, np and plt,
    In[3] np, plt and the builtin len, In[5] load_waltons, In[6] np, plt, the
    builtin range, rcParams and cycler. *)
Theorem cells_depend_on_free_names (L : Library) :
  Forall (fun c => forall s1 s2, agree (free_block c) s1 s2 -> same_outcome c s1 s2)
    notebook
  /\ free_block In1 = ∅ /\ free_block In4 = ∅
  /\ free_block In2 = list_to_set ["norm"; "np"; "plt"]
  /\ free_block In3 = list_to_set ["np"; "plt"; "len"]
  /\ free_block In5 = {["load_waltons"]}
  /\ free_block In6 = list_to_set ["np"; "plt"; "range"; "rcParams"; "cycler"].
Proof.
  split.
  - apply Forall_forall. intros c _ s1 s2. apply agree_same_outcome.
  - repeat split; vm_compute; reflexivity.
Qed.

(** C3, the claim as stated fails: In[5] raises NameError for
    [load_waltons] when In[4] has not run and completes when it has. *)
Lemma In5_needs_In4 :
  fst (exec_cell (L := stub) In5 (fresh (L := stub) tt)) = Raise (NameError "load_waltons")
  /\ fst (exec_cell (L := stub) In5 (snd (exec_cell (L := stub) In4 (fresh (L := stub) tt))))
     = Ok tt.
Proof. split; vm_compute; reflexivity. Qed.

(** C4 (as amended).  A cell leaves every global name it does not assign
    bound as it was.  Of the six cells only In[6] reads [np.random], and the
    generator state it leaves is the same whatever the state before. *)
Theorem cells_touch_only_assigned_names (L : Library) :
  Forall (fun c => forall s x, x ∉ assigned_block c ->
            globals (snd (exec_cell c s)) !! x = globals s !! x) notebook
  /\ map uses_random notebook = [false; false; false; false; false; true]
  /\ (forall (K : SciStack) (g1 g2 : rng),
        snd (Curves.In6.data g1) = snd (Curves.In6.data g2)).
Proof.
  split; [|split].
  - apply Forall_forall. intros c _ s x. apply cell_framed.
  - reflexivity.
  - intros K g1 g2. unfold Curves.In6.data. by rewrite (seed_then_draw g1 g2).
Qed.

(** C4, the claim as stated fails: In[6] changes the state of NumPy's
    global generator (here from never seeded to seeded with 19680801 and
    1000 deviates drawn), and In[4] changes the shared namespace. *)
Lemma In6_changes_generator_state :
  snd (Curves.In6.data (H := history) (None, 0)) = (Some 19680801%Z, 1000)
  /\ snd (Curves.In6.data (H := history) (None, 0)) <> (None, 0)
  /\ globals (snd (exec_cell (L := stub) In4 (fresh (L := stub) tt))) !! "load_waltons" = Some tt
  /\ globals (fresh (L := stub) tt) !! "load_waltons" = None.
Proof.
  assert (Hst : snd (Curves.In6.data (H := history) (None, 0))
                = (Some 19680801%Z, 1000)) by (vm_compute; reflexivity).
  split; [exact Hst|]. split; [rewrite Hst; discriminate|].
  split; vm_compute; reflexivity.
Qed.

(** C5.  The script never runs to completion: whatever the libraries do,
    running the six cells in order from an empty namespace ends in an
    exception, and when the statements up to line 185 complete, it is the
    NameError that line 186 raises for [cycler], with the state as line 185
    left it. *)
Theorem notebook_raises_in_In6 (L : Library) (w : lib_world) :
  (exists e s', run notebook (fresh w) = (Raise e, s')
                /\ (e = NameError "cycler" \/ not_name_error e))
  /\ (forall s1, iter_m exec upto_line_185 (fresh w) = (Ok tt, s1) ->
        run notebook (fresh w) = (Raise (NameError "cycler"), s1)).
Proof.
  assert (Hrun : run notebook (fresh w)
                 = bind (iter_m exec upto_line_185)
                     (fun _ => iter_m exec (line_186 :: after_line_186)) (fresh w)).
  { by rewrite run_concat, script_split, iter_m_app. }
  assert (Hscope : free_block upto_line_185 ⊆ list_to_set builtin_names).
  { apply (bool_decide_unpack _). vm_compute. exact I. }
  assert (Hframe : "cycler" ∉ assigned_block upto_line_185).
  { apply (bool_decide_unpack _). vm_compute. exact I. }
  pose proof (cell_scoped upto_line_185 _ Hscope (fresh w) (scoped_builtins _)) as Hs.
  pose proof (cell_framed upto_line_185 (fresh w) "cycler" Hframe) as Hf.
  unfold exec_cell in Hs, Hf.
  rewrite Hrun. unfold bind at 1 2.
  destruct (iter_m exec upto_line_185 (fresh w)) as [[[]|e] s1] eqn:Hpre.
  - cbn [snd] in Hf. cbn [fresh globals] in Hf. rewrite lookup_empty in Hf.
    cbn [iter_m]. unfold bind. rewrite (line_186_raises s1 Hf).
    split; [by eauto|]. by intros s1' [= <-].
  - split; [|by intros s1' [=]].
    exists e, s1. split; [done|]. right. apply Hs.
Qed.

(** C5 on a library where every operation succeeds: the run ends with
    NameError for [cycler]; N, data and cmap are bound by then, and lines,
    Line2D and custom_lines never are. *)
Lemma stub_run_stops_at_line_186 :
  fst (run (L := stub) notebook (fresh (L := stub) tt)) = Raise (NameError "cycler")
  /\ Forall (fun x => is_Some (globals (snd (run (L := stub) notebook (fresh (L := stub) tt))) !! x))
       ["N"; "data"; "cmap"]
  /\ Forall (fun x => globals (snd (run (L := stub) notebook (fresh (L := stub) tt))) !! x = None)
       ["lines"; "Line2D"; "custom_lines"].
Proof.
  split; [vm_compute; reflexivity|].
  split; repeat constructor; vm_compute; eauto.
Qed.



(** Lines 180 to 185 of In[6] on that library, where [range(N)] yields two
    elements, run after In[1] to In[5]: seven calls, [logspace] and [randn]
    once per element. *)
Lemma stub_In6_lines_180_185 :
  fst (run (L := stub) [In1; In2; In3; In4; In5] (fresh (L := stub) tt)) = Ok tt
  /\ calls_made (snd (run (L := stub) [In1; In2; In3; In4; In5] (fresh (L := stub) tt))) = 28
  /\ fst (iter_m exec upto_line_185 (fresh (L := stub) tt)) = Ok tt
  /\ calls_made (snd (iter_m exec upto_line_185 (fresh (L := stub) tt))) = 28 + 7.
Proof. repeat split; vm_compute; reflexivity. Qed.


(** With a handler the property is lost: a [try] around a call that raises
    completes normally. *)
Lemma handler_swallows :
  let s := STry [SExpr (call "len" [])] [] in
  fst (exec (L := failing) s (fresh (L := failing) tt)) = Ok tt
  /\ map ev_raised (trace (snd (exec (L := failing) s (fresh (L := failing) tt)))) = [Some tt].
Proof. split; vm_compute; reflexivity. Qed.

(** * Further facts about the cells *)

Section MoreCurveFacts.
Import Curves.
Local Open Scope R_scope.

Lemma nth_zip_with_lt {A B C} (f : A -> B -> C) l k (da : A) (db : B) (dc : C) i :
  (i < length l)%nat -> (i < length k)%nat ->
  nth i (zip_with f l k) dc = f (nth i l da) (nth i k db).
Proof.
  revert k i. induction l as [|a l IH]; intros [|b k] [|i] Hl Hk; simpl in *; try lia; [done|].
  apply IH; lia.
Qed.

(** X1.  The grid [np.linspace(a, b, n)] with at least two points: [n] points,
    the first is [a], the last is [b], and they increase strictly when
    [a < b]. *)
Theorem linspace_grid (a b : R) (n : nat) :
  (2 <= n)%nat -> a < b ->
  length (linspace a b n) = n
  /\ nth 0 (linspace a b n) 0 = a
  /\ nth (n - 1) (linspace a b n) 0 = b
  /\ StronglySorted Rlt (linspace a b n).
Proof.
  intros Hn Hab.
  assert (Hpos : 0 < INR (n - 1)) by (apply lt_0_INR; lia).
  split; [apply linspace_length|]. split; [|split].
  - rewrite linspace_nth by lia. simpl. ring.
  - rewrite linspace_nth by lia. field. lra.
  - unfold linspace. apply sorted_map_seq. intros i j Hij.
    apply Rplus_lt_compat_l, Rmult_lt_compat_r; [|by apply lt_INR].
    apply Rdiv_lt_0_compat; lra.
Qed.

Lemma linspace_grid_witness :
  length (linspace 0 20 200) = 200%nat
  /\ nth 0 (linspace 0 20 200) 0 = 0
  /\ nth (200 - 1) (linspace 0 20 200) 0 = 20
  /\ StronglySorted Rlt (linspace 0 20 200).
Proof. apply (linspace_grid 0 20 200); [lia | lra]. Defined.

Lemma linspace_mono a b n i j :
  a <= b -> (i <= j)%nat ->
  a + INR i * ((b - a) / INR (n - 1)) <= a + INR j * ((b - a) / INR (n - 1)).
Proof.
  intros Hab Hij. apply Rplus_le_compat_l, Rmult_le_compat_r; [|by apply le_INR].
  destruct n as [|[|n]].
  - simpl. unfold Rdiv. rewrite Rinv_0. lra.
  - simpl. unfold Rdiv. rewrite Rinv_0. lra.
  - apply Rmult_le_pos; [lra|]. left. apply Rinv_0_lt_compat, lt_0_INR. lia.
Qed.

(** X2.  Every curve of In[3] has as many ordinates as abscissas, 200 of each:
    [np.ones(len(t))] is as long as the grid. *)
Theorem In3_curves_aligned :
  length (fst In3.plot0) = 200%nat /\ length (snd In3.plot0) = 200%nat
  /\ length (fst In3.plot1) = 200%nat /\ length (snd In3.plot1) = 200%nat
  /\ Forall (fun y => y = In3.m0) (snd In3.plot0).
Proof.
  rewrite plot0_tabulates_m, plot1_tabulates_S. cbn [fst snd].
  rewrite !length_map. unfold In3.t. rewrite linspace_length.
  repeat split. apply Forall_forall. intros y Hy.
  by apply list_elem_of_In, in_map_iff in Hy as (x & <- & _).
Qed.

Context `{SciStack}.

(** X3.  When the distribution function is nondecreasing and the 0.99 quantile
    is not negative, the curve In[1] plots never decreases along the grid and
    the survival curve In[2] plots never increases; both have 100 points. *)
Theorem death_and_survival_monotone :
  (forall x y, x <= y -> norm_cdf 4 1.5 x <= norm_cdf 4 1.5 y) ->
  0 <= norm_ppf 0.99 4 1.5 ->
  StronglySorted Rle (snd In1.plot) /\ StronglySorted Rge (snd In2.plot)
  /\ length (snd In1.plot) = 100%nat /\ length (snd In2.plot) = 100%nat.
Proof.
  intros Hmono Hq.
  unfold In2.plot, In1.plot, rsub_scalar, cdf. cbn [snd].
  change In2.t with In1.t. change In2.rv with In1.rv. cbn [In1.rv loc scale].
  unfold In1.t, linspace. rewrite !map_map, !length_map, length_seq.
  split; [|split; [|done]].
  - apply sorted_map_seq. intros i j Hij. apply Hmono, linspace_mono; [done | lia].
  - apply sorted_map_seq. intros i j Hij. apply Rle_ge.
    apply Rplus_le_compat_l, Ropp_le_contravar, Hmono, linspace_mono; [done | lia].
Qed.

(** ** The data of In[6] *)

Lemma rows_cons ii rest g :
  In6.rows (ii :: rest) g
  = (add_scalar (add_arr (logspace 0 1 100) (fst (randn 100 g))) (INR ii)
       :: fst (In6.rows rest (advance 100 g)),
     snd (In6.rows rest (advance 100 g))).
Proof.
  cbn [In6.rows]. unfold randn. cbn [fst snd].
  by destruct (In6.rows rest (advance 100 g)).
Qed.

Lemma rows_length iis g : length (fst (In6.rows iis g)) = length iis.
Proof.
  revert g. induction iis as [|ii iis IH]; intros g; [done|].
  rewrite rows_cons. cbn [fst length]. by rewrite IH.
Qed.

Lemma rows_nth iis : forall g ii,
  (ii < length iis)%nat ->
  nth ii (fst (In6.rows iis g)) []
  = add_scalar
      (add_arr (logspace 0 1 100)
         (fst (randn 100 (Nat.iter ii (advance 100) g))))
      (INR (nth ii iis 0%nat)).
Proof.
  induction iis as [|i0 iis IH]; intros g ii Hii; [cbn in Hii; lia|].
  rewrite rows_cons. destruct ii as [|ii]; cbn [fst nth]; [done|].
  rewrite IH by (cbn in Hii; lia). by rewrite Nat.iter_succ_r.
Qed.

Lemma row_length (noise : list R) (c : R) :
  length noise = 100%nat ->
  length (add_scalar (add_arr (logspace 0 1 100) noise) c) = 100%nat.
Proof.
  intros Hn. unfold add_scalar, add_arr, logspace.
  rewrite length_map, length_zip_with, length_map, linspace_length, Hn. reflexivity.
Qed.

(** X4.  The array [data] of In[6] has 100 rows of 10 entries: it is the
    transpose of 10 rows of 100 entries, one per [ii]. *)
Theorem In6_data_shape (g : rng) :
  length (fst (In6.data g)) = 100%nat
  /\ Forall (fun row => length row = 10%nat) (fst (In6.data g))
  /\ Forall (fun row => length row = 100%nat)
       (fst (In6.rows (seq 0 In6.N) (np_random_seed 19680801 g))).
Proof.
  unfold In6.data.
  pose proof (rows_length (seq 0 In6.N) (np_random_seed 19680801 g)) as Hlen.
  pose proof (rows_nth (seq 0 In6.N) (np_random_seed 19680801 g)) as Hnth.
  destruct (In6.rows (seq 0 In6.N) (np_random_seed 19680801 g)) as [rs g'].
  cbn [fst] in *. rewrite length_seq in Hlen.
  split; [|split].
  - unfold transpose. by rewrite length_map, length_seq.
  - unfold transpose. apply Forall_forall. intros row Hrow.
    apply list_elem_of_In, in_map_iff in Hrow as (j & <- & _).
    by rewrite length_map.
  - apply Forall_forall. intros row Hrow.
    apply list_elem_of_In, (In_nth _ _ []) in Hrow as (ii & Hii & <-).
    rewrite Hnth by (rewrite length_seq; lia).
    apply row_length. unfold randn. cbn [fst]. by rewrite length_map, length_seq.
Qed.

(** X5.  Entry [data[j][ii]] of In[6] is [10 ** (j/99)] plus the [j]-th deviate
    of the [ii]-th draw of 100 after seeding, plus [ii]. *)
Theorem In6_data_entry (g : rng) (j ii : nat) :
  (j < 100)%nat -> (ii < 10)%nat ->
  nth ii (nth j (fst (In6.data g)) []) 0
  = Rpower 10 (INR j / 99)
    + gauss (Nat.iter ii (advance 100) (np_random_seed 19680801 g)) j
    + INR ii.
Proof.
  intros Hj Hii. unfold In6.data.
  pose proof (rows_length (seq 0 In6.N) (np_random_seed 19680801 g)) as Hlen.
  pose proof (rows_nth (seq 0 In6.N) (np_random_seed 19680801 g) ii) as Hnth.
  destruct (In6.rows (seq 0 In6.N) (np_random_seed 19680801 g)) as [rs g'].
  cbn [fst] in *. rewrite length_seq in Hlen, Hnth. unfold In6.N in *.
  unfold transpose.
  rewrite (nth_map_lt _ _ 0%nat) by (rewrite length_seq; lia).
  rewrite seq_nth by lia. cbn [Nat.add].
  rewrite (nth_map_lt _ _ []) by lia.
  rewrite Hnth by lia. rewrite seq_nth by lia. cbn [Nat.add].
  unfold add_scalar, add_arr, logspace, randn. cbn [fst].
  rewrite (nth_map_lt _ _ 0)
    by (rewrite length_zip_with, !length_map, linspace_length, length_seq; lia).
  rewrite (nth_zip_with_lt _ _ _ 0 0)
    by (rewrite ?length_map, ?linspace_length, ?length_seq; lia).
  rewrite (nth_map_lt _ _ 0) by (rewrite linspace_length; lia).
  rewrite (nth_map_lt _ _ 0%nat) by (rewrite length_seq; lia).
  rewrite seq_nth by lia. cbn [Nat.add].
  rewrite linspace_nth by lia.
  do 3 f_equal. rewrite INR_IZR_INZ. simpl. field.
Qed.

End MoreCurveFacts.

Lemma death_and_survival_monotone_witness :
  StronglySorted Rle (snd (Curves.In1.plot (H := history)))
  /\ StronglySorted Rge (snd (Curves.In2.plot (H := history)))
  /\ length (snd (Curves.In1.plot (H := history))) = 100
  /\ length (snd (Curves.In2.plot (H := history))) = 100.
Proof.
  apply (death_and_survival_monotone (H := history)).
  - intros x y Hxy. cbn [norm_cdf history]. lra.
  - cbn [norm_ppf history]. lra.
Defined.

Lemma In6_data_entry_witness :
  nth 3 (nth 0 (fst (Curves.In6.data (H := history) (None, 0))) []) 0%R
  = (Rpower 10 (INR 0 / 99)
     + @gauss history
         (Nat.iter 3 (@advance history 100)
            (@np_random_seed history 19680801 (None, 0%nat))) 0
     + INR 3)%R.
Proof. apply (In6_data_entry (H := history) (None, 0) 0 3); lia. Defined.

(** ** What In[6] leaves undone *)

(** X6.  In[6] stops at line 186 wherever [cycler] is not bound: the cell ends
    in an exception, and the names that only later lines would bind (Line2D,
    custom_lines, lines, fig, ax) are bound as before, as are cycler,
    rcParams and the comprehension variable ii, which does not leak. *)
Theorem In6_stops_at_line_186 (L : Library) (s : state) :
  globals s !! "cycler" = None ->
  (exists e, fst (exec_cell In6 s) = Raise e)
  /\ Forall (fun x => globals (snd (exec_cell In6 s)) !! x = globals s !! x)
       ["Line2D"; "custom_lines"; "lines"; "fig"; "ax"; "cycler"; "rcParams"; "ii"].
Proof.
  intros Hc.
  assert (Hfr : Forall (fun x => x ∉ assigned_block (firstn 5 In6))
                  ["Line2D"; "custom_lines"; "lines"; "fig"; "ax"; "cycler";
                   "rcParams"; "ii"]).
  { repeat constructor; apply (bool_decide_unpack _); vm_compute; exact I. }
  assert (Hpre : forall x, x ∉ assigned_block (firstn 5 In6) ->
            globals (snd (iter_m exec (firstn 5 In6) s)) !! x = globals s !! x).
  { intros x Hx. apply (cell_framed (firstn 5 In6) s x Hx). }
  assert (Hrun : exec_cell In6 s
                 = bind (iter_m exec (firstn 5 In6))
                     (fun _ => iter_m exec (line_186 :: after_line_186)) s).
  { unfold exec_cell. rewrite <- iter_m_app. reflexivity. }
  rewrite Hrun. unfold bind.
  destruct (iter_m exec (firstn 5 In6) s) as [[[]|e] s1]; cbn [snd] in Hpre.
  - assert (Hc1 : globals s1 !! "cycler" = None).
    { rewrite <- Hc. apply Hpre. apply (bool_decide_unpack _). vm_compute. exact I. }
    cbn [iter_m]. unfold bind. rewrite (line_186_raises s1 Hc1). cbn [fst snd].
    split; [by eauto|]. eapply Forall_impl; [exact Hfr|]. intros x Hx. by apply Hpre.
  - cbn [fst snd]. split; [by eauto|].
    eapply Forall_impl; [exact Hfr|]. intros x Hx. by apply Hpre.
Qed.

Lemma In6_stops_at_line_186_witness :
  (exists e, fst (exec_cell (L := stub) In6
                    (snd (run (L := stub) [In1; In2; In3; In4; In5]
                            (fresh (L := stub) tt)))) = Raise e)
  /\ Forall (fun x =>
       globals (snd (exec_cell (L := stub) In6
                       (snd (run (L := stub) [In1; In2; In3; In4; In5]
                               (fresh (L := stub) tt))))) !! x
       = globals (snd (run (L := stub) [In1; In2; In3; In4; In5]
                         (fresh (L := stub) tt))) !! x)
       ["Line2D"; "custom_lines"; "lines"; "fig"; "ax"; "cycler"; "rcParams"; "ii"].
Proof.
  apply (In6_stops_at_line_186 stub
           (snd (run (L := stub) [In1; In2; In3; In4; In5] (fresh (L := stub) tt)))).
  vm_compute. reflexivity.
Defined.

(** ** What the first five cells leave behind *)

(** X7.  When the cells In[1] to In[5], run in order from an empty namespace,
    all complete, the names they import and assign are bound: norm, plt, np,
    rv, t, fig, ax, m0 and load_waltons. *)
Theorem first_cells_bind_names (L : Library) (w : lib_world) (s : state) :
  run [In1; In2; In3; In4; In5] (fresh w) = (Ok tt, s) ->
  Forall (fun x => is_Some (globals s !! x))
    ["norm"; "plt"; "np"; "rv"; "t"; "fig"; "ax"; "m0"; "load_waltons"].
Proof.
  intros Hrun. rewrite run_concat in Hrun.
  assert (Hfree : free_block (concat [In1; In2; In3; In4; In5])
                  ⊆ list_to_set builtin_names).
  { apply (bool_decide_unpack _). vm_compute. exact I. }
  pose proof (cell_scoped _ _ Hfree (fresh w) (scoped_builtins _)) as Hs.
  unfold exec_cell in Hs. rewrite Hrun in Hs. unfold scoped, visible in Hs.
  assert (Hdefs : Forall (fun x => x ∈ defs_block (concat [In1; In2; In3; In4; In5])
                                   /\ x ∉ (list_to_set builtin_names : gset string))
                    ["norm"; "plt"; "np"; "rv"; "t"; "fig"; "ax"; "m0"; "load_waltons"]).
  { repeat constructor; apply (bool_decide_unpack _); vm_compute; exact I. }
  eapply Forall_impl; [exact Hdefs|]. intros x [Hx Hnb].
  apply elem_of_dom.
  assert (Hin : x ∈ dom (globals s) ∪ list_to_set builtin_names).
  { apply Hs. by apply elem_of_union_r. }
  apply elem_of_union in Hin as [Hin|Hin]; [done | by destruct Hnb].
Qed.

Lemma first_cells_bind_names_witness :
  Forall (fun x => is_Some (globals (snd (run (L := stub) [In1; In2; In3; In4; In5]
                                            (fresh (L := stub) tt))) !! x))
    ["norm"; "plt"; "np"; "rv"; "t"; "fig"; "ax"; "m0"; "load_waltons"].
Proof.
  apply (first_cells_bind_names stub tt).
  vm_compute. reflexivity.
Defined.
